(** * Rock physics simulation: a shallow embedding of [src/game.js]

    The component [Index] keeps a mutable array of rocks ([rocksRef]), a
    running flag ([isPlaying]) and a displayed counter ([rockCount]).  Every
    animation frame calls [updatePhysics] when the simulation is running.

    Numbers.  JavaScript numbers are IEEE-754 doubles.  They are idealised here
    as real numbers: rounding and overflow are not modelled.  The one way the
    source can produce a non-finite value out of finite ones is a division by
    zero, so division is the partial operation [js_div] and every function that
    divides returns an [option]; [None] stands for "a NaN or an Infinity was
    stored into a rock".

    Environment.  [Math.random()] and [Date.now()] are inputs of [createRock],
    in the order in which the source calls them. *)

From Stdlib Require Import Reals Lra Lia ZArith String.
From stdpp Require Import base option list sorting.

#[local] Open Scope R_scope.

(** ** Data model *)

(** The keys of [ROCK_TYPES] (the union type of the field [type]). *)
Inductive RockType : Type := granite | marble | obsidian | sandstone.

Record Material : Type := mkMaterial {
  m_color : string;
  density : R;
  bounce : R
}.

(** [const ROCK_TYPES = { granite: ..., marble: ..., obsidian: ..., sandstone: ... }] *)
Definition ROCK_TYPES (t : RockType) : Material :=
  match t with
  | granite => mkMaterial "#8B7355" 1.2 0.6
  | marble => mkMaterial "#F5F5DC" 1.0 0.7
  | obsidian => mkMaterial "#36454F" 1.5 0.5
  | sandstone => mkMaterial "#FAD5A5" 0.8 0.8
  end.

(** [interface Rock] *)
Record Rock : Type := mkRock {
  id : R;
  x : R;
  y : R;
  vx : R;
  vy : R;
  radius : R;
  color : string;
  rotation : R;
  rotationSpeed : R;
  mass : R;
  type : RockType
}.

(** Field assignments [rock.f = v]. *)
Definition set_x (v : R) (rock : Rock) : Rock :=
  mkRock (id rock) v (y rock) (vx rock) (vy rock) (radius rock) (color rock)
         (rotation rock) (rotationSpeed rock) (mass rock) (type rock).
Definition set_y (v : R) (rock : Rock) : Rock :=
  mkRock (id rock) (x rock) v (vx rock) (vy rock) (radius rock) (color rock)
         (rotation rock) (rotationSpeed rock) (mass rock) (type rock).
Definition set_vx (v : R) (rock : Rock) : Rock :=
  mkRock (id rock) (x rock) (y rock) v (vy rock) (radius rock) (color rock)
         (rotation rock) (rotationSpeed rock) (mass rock) (type rock).
Definition set_vy (v : R) (rock : Rock) : Rock :=
  mkRock (id rock) (x rock) (y rock) (vx rock) v (radius rock) (color rock)
         (rotation rock) (rotationSpeed rock) (mass rock) (type rock).
Definition set_rotation (v : R) (rock : Rock) : Rock :=
  mkRock (id rock) (x rock) (y rock) (vx rock) (vy rock) (radius rock) (color rock)
         v (rotationSpeed rock) (mass rock) (type rock).
Definition set_rotationSpeed (v : R) (rock : Rock) : Rock :=
  mkRock (id rock) (x rock) (y rock) (vx rock) (vy rock) (radius rock) (color rock)
         (rotation rock) v (mass rock) (type rock).

(** The canvas element, as far as the physics reads it. *)
Record Canvas : Type := mkCanvas {
  width : R;
  height : R
}.

(** The state of the component: [rocksRef.current], and the two React state
    cells [isPlaying] and [rockCount]. *)
Record Sim : Type := mkSim {
  rocks : list Rock;
  isPlaying : bool;
  rockCount : nat
}.

(** [useRef<Rock[]>([])], [useState(true)], [useState(0)] *)
Definition initial : Sim := mkSim [] true 0.

(** ** JavaScript library functions on idealised numbers *)

(** [a / b]; [None] when the double division would give NaN or an Infinity. *)
Definition js_div (a b : R) : option R :=
  if Req_dec_T b 0 then None else Some (a / b).

(** [Math.floor] *)
Definition Math_floor (r : R) : Z := Int_part r.

(** [Math.atan2(y, x)], the angle of the point [(x, y)] in (-PI, PI], with
    [Math.atan2(0, 0) = 0]. *)
Definition Math_atan2 (dy dx : R) : R :=
  if Rlt_dec 0 dx then atan (dy / dx)
  else if Rlt_dec dx 0 then
    (if Rle_dec 0 dy then atan (dy / dx) + PI else atan (dy / dx) - PI)
  else if Rlt_dec 0 dy then PI / 2
  else if Rlt_dec dy 0 then - (PI / 2)
  else 0.

(** [array[k]] for an integer index: [undefined] (here [None]) out of range. *)
Definition js_index {A : Type} (l : list A) (k : Z) : option A :=
  if (k <? 0)%Z then None else l !! Z.to_nat k.

(** ** Spawning *)

(** [Object.keys(ROCK_TYPES)], in insertion order. *)
Definition types : list RockType := [granite; marble; obsidian; sandstone].

(** [createRock(x, y, vx, vy)].  [now] is the value of [Date.now()] and
    [u_type], [u_radius], [u_id], [u_rot] are the four values of
    [Math.random()], in call order.  Reading [ROCK_TYPES[undefined].color]
    throws, which is the [None] of the lookup. *)
Definition createRock (now : Z) (u_type u_radius u_id u_rot : R)
    (x0 y0 vx0 vy0 : R) (s : Sim) : option Sim :=
  t ← js_index types (Math_floor (u_type * INR (length types)));
  let radius0 := 15 + u_radius * 25 in
  let rock :=
    mkRock (IZR now + u_id) x0 y0 vx0 vy0 radius0
           (m_color (ROCK_TYPES t))
           0
           ((u_rot - 0.5) * 0.1)
           (radius0 * density (ROCK_TYPES t))
           t in
  let rocks' := rocks s ++ [rock] in
  Some (mkSim rocks' (isPlaying s) (length rocks')).

(** [clearRocks()] *)
Definition clearRocks (s : Sim) : Sim := mkSim [] (isPlaying s) 0.

(** [setIsPlaying(b)] and [togglePlayPause()] *)
Definition setIsPlaying (b : bool) (s : Sim) : Sim :=
  mkSim (rocks s) b (rockCount s).
Definition togglePlayPause (s : Sim) : Sim :=
  setIsPlaying (negb (isPlaying s)) s.

(** ** The physics step *)

Definition gravity : R := 0.5.
Definition friction : R := 0.98.
Definition airResistance : R := 0.999.

(** Lines 67-79: gravity, air resistance, position and rotation update. *)
Definition integrate (rock : Rock) : Rock :=
  let rock := set_vy (vy rock + gravity) rock in
  let rock := set_vx (vx rock * airResistance) rock in
  let rock := set_vy (vy rock * airResistance) rock in
  let rock := set_x (x rock + vx rock) rock in
  let rock := set_y (y rock + vy rock) rock in
  set_rotation (rotation rock + rotationSpeed rock) rock.

(** The four wall tests (lines 82, 87, 94, 98). *)
Definition hitsLeft (rock : Rock) : Prop := x rock - radius rock < 0.
Definition hitsRight (canvas : Canvas) (rock : Rock) : Prop :=
  x rock + radius rock > width canvas.
Definition hitsTop (rock : Rock) : Prop := y rock - radius rock < 0.
Definition hitsBottom (canvas : Canvas) (rock : Rock) : Prop :=
  y rock + radius rock > height canvas.

(** The four wall responses. *)
Definition bounceLeft (rock : Rock) : Rock :=
  let rock := set_x (radius rock) rock in
  let rock := set_vx (- vx rock * bounce (ROCK_TYPES (type rock))) rock in
  set_rotationSpeed (rotationSpeed rock * -0.5) rock.
Definition bounceRight (canvas : Canvas) (rock : Rock) : Rock :=
  let rock := set_x (width canvas - radius rock) rock in
  let rock := set_vx (- vx rock * bounce (ROCK_TYPES (type rock))) rock in
  set_rotationSpeed (rotationSpeed rock * -0.5) rock.
Definition bounceTop (rock : Rock) : Rock :=
  let rock := set_y (radius rock) rock in
  set_vy (- vy rock * bounce (ROCK_TYPES (type rock))) rock.
Definition bounceBottom (canvas : Canvas) (rock : Rock) : Rock :=
  let rock := set_y (height canvas - radius rock) rock in
  let rock := set_vy (- vy rock * bounce (ROCK_TYPES (type rock))) rock in
  let rock := set_vx (vx rock * friction) rock in
  set_rotationSpeed (rotationSpeed rock * 0.9) rock.

(** Lines 82-103: the four [if]s, in order. *)
Definition bounceWalls (canvas : Canvas) (rock : Rock) : Rock :=
  let rock := if Rlt_dec (x rock - radius rock) 0 then bounceLeft rock else rock in
  let rock :=
    if Rgt_dec (x rock + radius rock) (width canvas)
    then bounceRight canvas rock else rock in
  let rock := if Rlt_dec (y rock - radius rock) 0 then bounceTop rock else rock in
  if Rgt_dec (y rock + radius rock) (height canvas)
  then bounceBottom canvas rock else rock.

(** Lines 115-135: the body of [if (distance < minDistance)].  Both rocks are
    pushed apart, then the four new velocity components are computed from the
    old velocities and stored. *)
Definition collide (rock other : Rock) : option (Rock * Rock) :=
  let dx := x other - x rock in
  let dy := y other - y rock in
  let distance := sqrt (dx * dx + dy * dy) in
  let minDistance := radius rock + radius other in
  let angle := Math_atan2 dy dx in
  let overlap := minDistance - distance in
  let separationX := cos angle * overlap * 0.5 in
  let separationY := sin angle * overlap * 0.5 in
  let rock := set_x (x rock - separationX) rock in
  let rock := set_y (y rock - separationY) rock in
  let other := set_x (x other + separationX) other in
  let other := set_y (y other + separationY) other in
  let totalMass := mass rock + mass other in
  rockNewVx ← js_div (vx rock * (mass rock - mass other) + 2 * mass other * vx other) totalMass;
  rockNewVy ← js_div (vy rock * (mass rock - mass other) + 2 * mass other * vy other) totalMass;
  otherNewVx ← js_div (vx other * (mass other - mass rock) + 2 * mass rock * vx rock) totalMass;
  otherNewVy ← js_div (vy other * (mass other - mass rock) + 2 * mass rock * vy rock) totalMass;
  let rock := set_vx (rockNewVx * 0.8) rock in
  let rock := set_vy (rockNewVy * 0.8) rock in
  let other := set_vx (otherNewVx * 0.8) other in
  let other := set_vy (otherNewVy * 0.8) other in
  Some (rock, other).

(** The overlap test of line 113. *)
Definition overlapping (rock other : Rock) : Prop :=
  sqrt ((x other - x rock) * (x other - x rock) + (y other - y rock) * (y other - y rock))
  < radius rock + radius other.

(** Lines 107-136: one evaluation of the pairwise check.  The boolean tells
    whether the collision response ran. *)
Definition checkPair (rock other : Rock) : option (Rock * Rock * bool) :=
  let dx := x other - x rock in
  let dy := y other - y rock in
  let distance := sqrt (dx * dx + dy * dy) in
  let minDistance := radius rock + radius other in
  if Rlt_dec distance minDistance
  then '(rock', other') ← collide rock other; Some (rock', other', true)
  else Some (rock, other, false).

(** A record of one evaluation of the pairwise check: the indices of the two
    rocks and whether they collided.  The list of these records is ghost
    state: it is written, never read, by the step. *)
Record PairCheck : Type := mkPairCheck {
  pc_i : nat;
  pc_j : nat;
  pc_hit : bool
}.

(** The array of rocks, mutated in place, with the trace of pair checks. *)
Definition World : Type := (list Rock * list PairCheck)%type.

(** [for (let j = start; j < start + count; j++) body(j)] on a threaded state;
    [forEach] is the same loop from 0 over the length of the array. *)
Fixpoint for_range {St : Type} (body : nat → St → option St)
    (start count : nat) (s : St) : option St :=
  match count with
  | O => Some s
  | S count' => s' ← body start s; for_range body (S start) count' s'
  end.

(** One iteration of the inner loop.  [rock] is the object at [index] and
    [other] the one at [j]; both are written back, as the source mutates them
    in place.  Reading a field of [undefined] throws. *)
Definition pairStep (index j : nat) (w : World) : option World :=
  rock ← w.1 !! index;
  other ← w.1 !! j;
  '(rock', other', hit) ← checkPair rock other;
  Some (<[j := other']> (<[index := rock']> w.1), w.2 ++ [mkPairCheck index j hit]).

(** The callback of [forEach] at [index]. *)
Definition processRock (canvas : Canvas) (index : nat) (w : World) : option World :=
  rock ← w.1 !! index;
  let rock := bounceWalls canvas (integrate rock) in
  let w := (<[index := rock]> w.1, w.2) in
  for_range (pairStep index) (index + 1) (length w.1 - (index + 1)) w.

(** [updatePhysics()]; [canvas] is [canvasRef.current]. *)
Definition updatePhysics (canvas : option Canvas) (rs : list Rock) : option World :=
  match canvas with
  | None => Some (rs, [])
  | Some cv => for_range (processRock cv) 0 (length rs) (rs, [])
  end.

(** The part of [animate()] that touches the simulation state. *)
Definition animate (canvas : option Canvas) (s : Sim) : option Sim :=
  match canvas with
  | None => Some s
  | Some _ =>
    if isPlaying s
    then w ← updatePhysics canvas (rocks s); Some (mkSim w.1 (isPlaying s) (rockCount s))
    else Some s
  end.

(** Successive frames, one canvas reading per frame. *)
Fixpoint frames (canvases : list (option Canvas)) (s : Sim) : option Sim :=
  match canvases with
  | [] => Some s
  | canvas :: rest => s' ← animate canvas s; frames rest s'
  end.

(** ** Notions used by the statements *)

(** Translational kinetic energy of a rock. *)
Definition kineticEnergy (rock : Rock) : R :=
  0.5 * mass rock * (vx rock * vx rock + vy rock * vy rock).

(** The centre of the rock keeps the whole disc inside the canvas. *)
Definition inBounds (canvas : Canvas) (rock : Rock) : Prop :=
  radius rock <= x rock <= width canvas - radius rock
  ∧ radius rock <= y rock <= height canvas - radius rock.

(** The fields of a rock that the physics never assigns. *)
Definition static (rock : Rock) : R * R * string * R * RockType :=
  (id rock, radius rock, color rock, mass rock, type rock).

(** Data-model invariant of a rock made by [createRock]: its mass is its
    radius (at least 15) times a density of the catalog. *)
Definition positive_mass (rock : Rock) : Prop := 0 < mass rock.

(** The pair of indices of a pair check. *)
Definition pc_pair (e : PairCheck) : nat * nat := (pc_i e, pc_j e).


(** The trace written by the inner loop of row [index] from [j0] on, one
    entry per element of [hits]. *)
Definition rowChecks (index j0 : nat) (hits : list bool) : list PairCheck :=
  zip_with (mkPairCheck index) (seq j0 (length hits)) hits.

(** The index pairs of row [index] of an array of [n] rocks, and those of
    the rows before row [k]. *)
Definition rowPairs (n index : nat) : list (nat * nat) :=
  pair index <$> seq (index + 1) (n - (index + 1)).
Definition pairsUpto (n k : nat) : list (nat * nat) :=
  concat (rowPairs n <$> seq 0 k).

(** The environment and the arguments of one call of [createRock]. *)
Record Spawn : Type := mkSpawn {
  sp_now : Z;
  sp_u_type : R;
  sp_u_radius : R;
  sp_u_id : R;
  sp_u_rot : R;
  sp_x : R;
  sp_y : R;
  sp_vx : R;
  sp_vy : R
}.

Definition spawn (a : Spawn) (s : Sim) : option Sim :=
  createRock (sp_now a) (sp_u_type a) (sp_u_radius a) (sp_u_id a) (sp_u_rot a)
             (sp_x a) (sp_y a) (sp_vx a) (sp_vy a) s.

(** A sequence of calls of [createRock]. *)
Fixpoint spawnAll (calls : list Spawn) (s : Sim) : option Sim :=
  match calls with
  | [] => Some s
  | a :: rest => s' ← spawn a s; spawnAll rest s'
  end.

(** [Math.random()] returns a number in [0, 1). *)
Definition unit_interval (u : R) : Prop := 0 <= u < 1.

Definition random_ok (a : Spawn) : Prop :=
  unit_interval (sp_u_type a) ∧ unit_interval (sp_u_radius a)
  ∧ unit_interval (sp_u_id a) ∧ unit_interval (sp_u_rot a).


(** ** Concrete scenarios *)

(** A 400 x 400 canvas. *)
Definition scenarioCanvas : Canvas := mkCanvas 400 400.

(** The granite rock of radius 20 at rest at (100, 100): what [createRock]
    makes when the draws are 0 for the type and 0.2 for the radius. *)
Definition scenarioRock (i rs : R) : Rock :=
  mkRock i 100 100 0 0 20 "#8B7355" 0 rs 24 granite.



(** Two granite rocks of radius 20 side by side: the first touches the left
    wall and rises at 0.5 per frame, the second overlaps it from the right. *)
Definition pusherSpawn : Spawn := mkSpawn 1 0 0.2 0 0.5 20 100 0 (-0.5).
Definition pushedSpawn : Spawn := mkSpawn 2 0 0.2 0 0.5 30 100 0 0.

(** ** Pointer input, dropping and drawing *)

(** [mouseRef.current] *)
Record Mouse : Type := mkMouse {
  mouse_x : R;
  mouse_y : R;
  isDown : bool;
  startX : R;
  startY : R
}.

(** [useRef({ x: 0, y: 0, isDown: false, startX: 0, startY: 0 })] *)
Definition initialMouse : Mouse := mkMouse 0 0 false 0 0.

(** What the handlers read of [canvas.getBoundingClientRect()]. *)
Record Rect : Type := mkRect {
  rect_left : R;
  rect_top : R
}.

(** [handleMouseDown(e)] *)
Definition handleMouseDown (canvas : option Canvas) (rect : Rect)
    (clientX clientY : R) (m : Mouse) : Mouse :=
  match canvas with
  | None => m
  | Some _ =>
    let px := clientX - rect_left rect in
    let py := clientY - rect_top rect in
    mkMouse px py true px py
  end.

(** [handleMouseMove(e)] *)
Definition handleMouseMove (canvas : option Canvas) (rect : Rect)
    (clientX clientY : R) (m : Mouse) : Mouse :=
  match canvas with
  | None => m
  | Some _ =>
    mkMouse (clientX - rect_left rect) (clientY - rect_top rect)
            (isDown m) (startX m) (startY m)
  end.

(** The whole component state: the simulation and the pointer. *)
Record App : Type := mkApp {
  sim : Sim;
  mouse : Mouse
}.

Definition initialApp : App := mkApp initial initialMouse.

(** [handleMouseUp()], also bound to [onMouseLeave].  [power] is computed and
    never read.  The clock reading and the four draws are those of the call of
    [createRock]. *)
Definition handleMouseUp (now : Z) (u_type u_radius u_id u_rot : R) (a : App)
    : option App :=
  if negb (isDown (mouse a)) then Some a
  else
    let dx := mouse_x (mouse a) - startX (mouse a) in
    let dy := mouse_y (mouse a) - startY (mouse a) in
    let power := Rmin (sqrt (dx * dx + dy * dy) * 0.2) 20 in
    s' ← createRock now u_type u_radius u_id u_rot
                    (startX (mouse a)) (startY (mouse a)) (dx * 0.1) (dy * 0.1) (sim a);
    Some (mkApp s' (mkMouse (mouse_x (mouse a)) (mouse_y (mouse a)) false
                            (startX (mouse a)) (startY (mouse a)))).

(** [spawnRandomRock()].  The three draws of the arguments come first, in
    argument order, then the four draws of [createRock]. *)
Definition spawnRandomRock (canvas : option Canvas) (now : Z)
    (u_x u_vx u_vy u_type u_radius u_id u_rot : R) (s : Sim) : option Sim :=
  match canvas with
  | None => Some s
  | Some cv =>
    createRock now u_type u_radius u_id u_rot
               (u_x * width cv) (-50) ((u_vx - 0.5) * 10) (u_vy * 5) s
  end.

(** What happens to the component: the DOM events of the canvas, the three
    buttons, and the animation frame.  Each carries what the handler reads of
    its environment. *)
Inductive Event : Type :=
  | EvMouseDown (canvas : option Canvas) (rect : Rect) (clientX clientY : R)
  | EvMouseMove (canvas : option Canvas) (rect : Rect) (clientX clientY : R)
  | EvMouseUp (now : Z) (u_type u_radius u_id u_rot : R)
  | EvDropRock (canvas : option Canvas) (now : Z)
               (u_x u_vx u_vy u_type u_radius u_id u_rot : R)
  | EvClear
  | EvTogglePlayPause
  | EvFrame (canvas : option Canvas).

Definition handle (e : Event) (a : App) : option App :=
  match e with
  | EvMouseDown canvas rect cx cy =>
      Some (mkApp (sim a) (handleMouseDown canvas rect cx cy (mouse a)))
  | EvMouseMove canvas rect cx cy =>
      Some (mkApp (sim a) (handleMouseMove canvas rect cx cy (mouse a)))
  | EvMouseUp now u1 u2 u3 u4 => handleMouseUp now u1 u2 u3 u4 a
  | EvDropRock canvas now ux uvx uvy u1 u2 u3 u4 =>
      s' ← spawnRandomRock canvas now ux uvx uvy u1 u2 u3 u4 (sim a);
      Some (mkApp s' (mouse a))
  | EvClear => Some (mkApp (clearRocks (sim a)) (mouse a))
  | EvTogglePlayPause => Some (mkApp (togglePlayPause (sim a)) (mouse a))
  | EvFrame canvas => s' ← animate canvas (sim a); Some (mkApp s' (mouse a))
  end.

Fixpoint run (events : list Event) (a : App) : option App :=
  match events with
  | [] => Some a
  | e :: rest => a' ← handle e a; run rest a'
  end.



(** The calls on the 2D context made by [drawRock], in order. *)
Inductive CanvasOp : Type :=
  | ctx_save
  | ctx_translate (tx ty : R)
  | ctx_rotate (angle : R)
  | ctx_createRadialGradient (x0 y0 r0 x1 y1 r1 : R)
  | gradient_addColorStop (offset : R) (c : string)
  | ctx_fillStyle_gradient
  | ctx_beginPath
  | ctx_moveTo (px py : R)
  | ctx_lineTo (px py : R)
  | ctx_closePath
  | ctx_fill
  | ctx_strokeStyle (c : string)
  | ctx_lineWidth (w : R)
  | ctx_stroke
  | ctx_restore.

(** One iteration of the loop of lines 157-168. *)
Definition outlineOp (points : nat) (rock : Rock) (i : nat) : CanvasOp :=
  let angle := INR i / INR points * PI * 2 in
  let radiusVariation := radius rock * (0.8 + sin (INR i * 2.5 + id rock) * 0.2) in
  let px := cos angle * radiusVariation in
  let py := sin angle * radiusVariation in
  if Nat.eqb i 0 then ctx_moveTo px py else ctx_lineTo px py.

(** [drawRock(ctx, rock)] *)
Definition drawRock (rock : Rock) : list CanvasOp :=
  let points := 8%nat in
  [ctx_save;
   ctx_translate (x rock) (y rock);
   ctx_rotate (rotation rock);
   ctx_createRadialGradient (- radius rock * 0.3) (- radius rock * 0.3) 0 0 0 (radius rock);
   gradient_addColorStop 0 (color rock);
   gradient_addColorStop 0.7 (color rock);
   gradient_addColorStop 1 "#000000";
   ctx_fillStyle_gradient;
   ctx_beginPath]
  ++ (outlineOp points rock <$> seq 0 points)
  ++ [ctx_closePath;
      ctx_fill;
      ctx_strokeStyle "rgba(0, 0, 0, 0.3)";
      ctx_lineWidth 1;
      ctx_stroke;
      ctx_restore].

(** The vertices of the path of a list of context calls. *)
Definition vertex (op : CanvasOp) : option (R * R) :=
  match op with
  | ctx_moveTo px py | ctx_lineTo px py => Some (px, py)
  | _ => None
  end.

(** The centre distance of two rocks, as line 110 computes it. *)
Definition centreDistance (rock other : Rock) : R :=
  sqrt ((x other - x rock) * (x other - x rock)
        + (y other - y rock) * (y other - y rock)).


(** ** Notions used by the further statements *)

(** No component of the motion of [r'] is faster than that of [r]. *)
Definition notFaster (r' r : Rock) : Prop :=
  Rabs (vx r') <= Rabs (vx r) ∧ Rabs (vy r') <= Rabs (vy r)
  ∧ Rabs (rotationSpeed r') <= Rabs (rotationSpeed r).


Definition is_move (e : Event) : Prop :=
  match e with EvMouseMove _ _ _ _ => True | _ => False end.

(** The point is no farther than the radius from the centre of the rock and
    no nearer than 0.6 times the radius. *)
Definition inRing (rock : Rock) (p : R * R) : Prop :=
  (0.6 * radius rock) * (0.6 * radius rock) <= p.1 * p.1 + p.2 * p.2
  ∧ p.1 * p.1 + p.2 * p.2 <= radius rock * radius rock.

(** Position and velocity of a rock, and those asked of [createRock]. *)
Definition launch (rock : Rock) : R * R * R * R := (x rock, y rock, vx rock, vy rock).
Definition sp_launch (a : Spawn) : R * R * R * R := (sp_x a, sp_y a, sp_vx a, sp_vy a).

(** A granite rock of radius 20 lying on the floor of the 400 x 400 canvas. *)
Definition restingRock : Rock := mkRock 1 100 380 0 0 20 "#8B7355" 0 0 24 granite.

(** ** Basic facts *)

Ltac wall_tests :=
  unfold hitsLeft, hitsRight, hitsTop, hitsBottom, gravity, airResistance, scenarioCanvas;
  simpl; lra.

Ltac unit_draws := repeat constructor; unfold unit_interval; simpl; lra.

Lemma js_div_Some (a b : R) : b ≠ 0 → js_div a b = Some (a / b).
Proof. intros Hb. unfold js_div. destruct (Req_dec_T b 0); [contradiction | reflexivity]. Qed.

Lemma bounce_range (t : RockType) : 0 <= bounce (ROCK_TYPES t) <= 1.
Proof. destruct t; simpl; lra. Qed.

Lemma density_pos (t : RockType) : 0 < density (ROCK_TYPES t).
Proof. destruct t; simpl; lra. Qed.

Lemma Math_floor_unit4 (u : R) :
  unit_interval u →
  Math_floor (u * 4) = 0%Z ∨ Math_floor (u * 4) = 1%Z
  ∨ Math_floor (u * 4) = 2%Z ∨ Math_floor (u * 4) = 3%Z.
Proof.
  intros [H0 H1]. unfold Math_floor.
  destruct (base_Int_part (u * 4)) as [Hle Hgt].
  assert (Hlo : (-1 < Int_part (u * 4))%Z) by (apply lt_IZR; lra).
  assert (Hhi : (Int_part (u * 4) < 4)%Z) by (apply lt_IZR; lra).
  lia.
Qed.

Lemma Math_atan2_0_0 : Math_atan2 0 0 = 0.
Proof.
  unfold Math_atan2.
  destruct (Rlt_dec 0 0) as [H | _]; [lra | reflexivity].
Qed.

Lemma Math_atan2_0_pos (dx : R) : 0 < dx → Math_atan2 0 dx = 0.
Proof.
  intros Hdx. unfold Math_atan2.
  destruct (Rlt_dec 0 dx) as [_ | H]; [| contradiction].
  replace (0 / dx) with 0 by (unfold Rdiv; ring). apply atan_0.
Qed.

Lemma static_eq (rock' rock : Rock) :
  static rock' = static rock →
  id rock' = id rock ∧ radius rock' = radius rock ∧ color rock' = color rock
  ∧ mass rock' = mass rock ∧ type rock' = type rock.
Proof. unfold static. intros E. injection E as -> -> -> -> ->. repeat split. Qed.

(** ** Spawning *)

Lemma createRock_Some (now : Z) (u1 u2 u3 u4 x0 y0 vx0 vy0 : R) (s : Sim) :
  unit_interval u1 →
  ∃ t, t ∈ types ∧
    createRock now u1 u2 u3 u4 x0 y0 vx0 vy0 s =
    Some (mkSim (rocks s ++
                  [mkRock (IZR now + u3) x0 y0 vx0 vy0 (15 + u2 * 25)
                          (m_color (ROCK_TYPES t)) 0 ((u4 - 0.5) * 0.1)
                          ((15 + u2 * 25) * density (ROCK_TYPES t)) t])
                (isPlaying s) (S (length (rocks s)))).
Proof.
  intros Hu. unfold createRock.
  replace (INR (length types)) with 4 by (simpl; lra).
  assert (Hlen : ∀ (l : list Rock) r, length (l ++ [r]) = S (length l))
    by (intros; rewrite length_app; simpl; lia).
  destruct (Math_floor_unit4 u1 Hu) as [E | [E | [E | E]]]; rewrite E; simpl;
    rewrite Hlen;
    [exists granite | exists marble | exists obsidian | exists sandstone];
    (split; [unfold types; repeat constructor | reflexivity]).
Qed.

Lemma createRock_granite_20 (now : Z) (u3 u4 x0 y0 vx0 vy0 : R) (s : Sim) :
  createRock now 0 0.2 u3 u4 x0 y0 vx0 vy0 s =
  Some (mkSim (rocks s ++ [mkRock (IZR now + u3) x0 y0 vx0 vy0 20 "#8B7355" 0
                                  ((u4 - 0.5) * 0.1) 24 granite])
              (isPlaying s) (S (length (rocks s)))).
Proof.
  unfold createRock.
  replace (0 * INR (length types)) with (INR 0) by (simpl; lra).
  unfold Math_floor. rewrite Int_part_INR. simpl.
  rewrite length_app, Nat.add_1_r. simpl.
  do 2 f_equal. f_equal. f_equal. f_equal; lra.
Qed.



Lemma createRock_positive_mass (now : Z) (u1 u2 u3 u4 x0 y0 vx0 vy0 : R) (s s' : Sim) :
  unit_interval u1 → unit_interval u2 →
  Forall positive_mass (rocks s) →
  createRock now u1 u2 u3 u4 x0 y0 vx0 vy0 s = Some s' →
  Forall positive_mass (rocks s').
Proof.
  intros H1 [H2 _] Hpos E.
  destruct (createRock_Some now u1 u2 u3 u4 x0 y0 vx0 vy0 s H1) as (t & _ & E').
  rewrite E' in E. injection E as <-. simpl.
  apply Forall_app. split; [exact Hpos |]. repeat constructor.
  unfold positive_mass. simpl. pose proof (density_pos t). nra.
Qed.







(** ** Pausing and clearing *)

Lemma animate_paused (canvas : option Canvas) (s : Sim) :
  isPlaying s = false → animate canvas s = Some s.
Proof. intros E. unfold animate. rewrite E. destruct canvas; reflexivity. Qed.

Lemma frames_paused (canvases : list (option Canvas)) (s : Sim) :
  isPlaying s = false → frames canvases s = Some s.
Proof.
  intros E. induction canvases as [| canvas rest IH]; simpl; [reflexivity |].
  rewrite (animate_paused _ _ E). simpl. exact IH.
Qed.

(** C5.  Once the simulation is paused, any number of frames, whatever the
    canvas of each, returns the very same state: the array of rocks, with
    every field of every rock, is unchanged. *)
Theorem paused_frames_change_nothing (canvases : list (option Canvas)) (s : Sim) :
  frames canvases (setIsPlaying false s) = Some (setIsPlaying false s)
  ∧ rocks (setIsPlaying false s) = rocks s.
Proof. split; [apply frames_paused |]; reflexivity. Qed.

Lemma updatePhysics_nil (canvas : option Canvas) : updatePhysics canvas [] = Some ([], []).
Proof. destruct canvas; reflexivity. Qed.

Lemma animate_nil (canvas : option Canvas) (s : Sim) :
  rocks s = [] → animate canvas s = Some s.
Proof.
  intros E. unfold animate. destruct canvas as [cv |]; [| reflexivity].
  destruct (isPlaying s) eqn:Ep; [| reflexivity].
  rewrite E, updatePhysics_nil. simpl. destruct s; simpl in *. congruence.
Qed.

(** C8.  After [clearRocks] the counter is 0 and the collection is empty;
    the physics step on it succeeds (no division happens), returns the empty
    collection and checks no pair, and any number of frames leaves the state
    as it is. *)
Theorem clearRocks_then_steps (s : Sim) (canvases : list (option Canvas)) :
  rockCount (clearRocks s) = 0%nat
  ∧ rocks (clearRocks s) = []
  ∧ (∀ canvas, updatePhysics canvas (rocks (clearRocks s)) = Some ([], []))
  ∧ frames canvases (clearRocks s) = Some (clearRocks s).
Proof.
  repeat split.
  - intros canvas. apply updatePhysics_nil.
  - induction canvases as [| canvas rest IH]; simpl; [reflexivity |].
    rewrite animate_nil by reflexivity. exact IH.
Qed.

(** ** The wall phase *)

Lemma integrate_fields (rock : Rock) :
  integrate rock =
  mkRock (id rock) (x rock + vx rock * airResistance)
         (y rock + (vy rock + gravity) * airResistance)
         (vx rock * airResistance) ((vy rock + gravity) * airResistance)
         (radius rock) (color rock) (rotation rock + rotationSpeed rock)
         (rotationSpeed rock) (mass rock) (type rock).
Proof. reflexivity. Qed.

Lemma integrate_static (rock : Rock) : static (integrate rock) = static rock.
Proof. reflexivity. Qed.

Lemma bounce_sqr (v b : R) : 0 <= b <= 1 → (- v * b) * (- v * b) <= v * v.
Proof.
  intros [H0 H1].
  assert (Hb : b * b <= 1) by nra.
  assert (Hv : 0 <= v * v) by nra.
  replace (- v * b * (- v * b)) with (v * v * (b * b)) by ring. nra.
Qed.

Lemma kineticEnergy_le (rock' rock : Rock) :
  0 <= mass rock → mass rock' = mass rock →
  vx rock' * vx rock' <= vx rock * vx rock →
  vy rock' * vy rock' <= vy rock * vy rock →
  kineticEnergy rock' <= kineticEnergy rock.
Proof. unfold kineticEnergy. intros Hm -> Hx Hy. nra. Qed.

Lemma kineticEnergy_nonneg (rock : Rock) : 0 <= mass rock → 0 <= kineticEnergy rock.
Proof. unfold kineticEnergy. intros Hm. nra. Qed.

Lemma bounceLeft_energy (rock : Rock) :
  0 <= mass rock → kineticEnergy (bounceLeft rock) <= kineticEnergy rock.
Proof.
  intros Hm. apply kineticEnergy_le; cbn; try lra.
  apply bounce_sqr, bounce_range.
Qed.

Lemma bounceTop_energy (rock : Rock) :
  0 <= mass rock → kineticEnergy (bounceTop rock) <= kineticEnergy rock.
Proof.
  intros Hm. apply kineticEnergy_le; cbn; try lra.
  apply bounce_sqr, bounce_range.
Qed.

(** One guarded assignment block [if (test) { rock = f(rock) }] keeps what
    [f] keeps. *)
Lemma guarded_energy {A B : Prop} (test : {A} + {B}) (f : Rock → Rock) (r r0 : Rock) :
  0 <= mass r0 →
  (∀ q, mass (f q) = mass q) →
  (∀ q, 0 <= mass q → kineticEnergy (f q) <= kineticEnergy q) →
  mass r = mass r0 ∧ kineticEnergy r <= kineticEnergy r0 →
  mass (if test then f r else r) = mass r0
  ∧ kineticEnergy (if test then f r else r) <= kineticEnergy r0.
Proof.
  intros Hm Hmass Hf [E L]. destruct test; [| split; assumption].
  split; [rewrite Hmass; exact E |].
  etrans; [apply Hf; rewrite E; exact Hm | exact L].
Qed.

Section WallPhase.
Variable cv : Canvas.

Lemma bounceRight_energy (rock : Rock) :
  0 <= mass rock → kineticEnergy (bounceRight cv rock) <= kineticEnergy rock.
Proof.
  intros Hm. apply kineticEnergy_le; cbn; try lra.
  apply bounce_sqr, bounce_range.
Qed.

Lemma bounceBottom_energy (rock : Rock) :
  0 <= mass rock → kineticEnergy (bounceBottom cv rock) <= kineticEnergy rock.
Proof.
  intros Hm. apply kineticEnergy_le; cbn.
  - exact Hm.
  - reflexivity.
  - unfold friction. assert (0 <= vx rock * vx rock) by nra. nra.
  - apply bounce_sqr, bounce_range.
Qed.

Lemma bounceWalls_energy (rock : Rock) :
  0 <= mass rock → kineticEnergy (bounceWalls cv rock) <= kineticEnergy rock.
Proof.
  intros Hm. unfold bounceWalls.
  apply (guarded_energy _ (bounceBottom cv));
    [exact Hm | reflexivity | apply bounceBottom_energy |].
  apply (guarded_energy _ bounceTop);
    [exact Hm | reflexivity | apply bounceTop_energy |].
  apply (guarded_energy _ (bounceRight cv));
    [exact Hm | reflexivity | apply bounceRight_energy |].
  apply (guarded_energy _ bounceLeft);
    [exact Hm | reflexivity | apply bounceLeft_energy |].
  split; [reflexivity | lra].
Qed.

Lemma bounceWalls_inside (rock : Rock) :
  ¬ hitsLeft rock → ¬ hitsRight cv rock → ¬ hitsTop rock → ¬ hitsBottom cv rock →
  bounceWalls cv rock = rock.
Proof.
  unfold hitsLeft, hitsRight, hitsTop, hitsBottom, bounceWalls. intros HL HR HT HB.
  destruct (Rlt_dec (x rock - radius rock) 0); [contradiction |].
  destruct (Rgt_dec (x rock + radius rock) (width cv)); [contradiction |].
  destruct (Rlt_dec (y rock - radius rock) 0); [contradiction |].
  destruct (Rgt_dec (y rock + radius rock) (height cv)); [contradiction | reflexivity].
Qed.

Lemma bounceWalls_static (rock : Rock) : static (bounceWalls cv rock) = static rock.
Proof.
  unfold bounceWalls.
  repeat match goal with
         | |- context [if ?c then _ else _] => destruct c
         end; reflexivity.
Qed.

(** On a canvas at least as wide and as high as the rock, the four tests
    leave the rock inside. *)
Lemma bounceWalls_inBounds (rock : Rock) :
  2 * radius rock <= width cv → 2 * radius rock <= height cv →
  inBounds cv (bounceWalls cv rock).
Proof.
  intros HW HH. unfold bounceWalls, inBounds.
  set (r1 := if Rlt_dec (x rock - radius rock) 0 then bounceLeft rock else rock).
  assert (H1 : radius r1 = radius rock ∧ radius rock <= x r1).
  { subst r1. destruct (Rlt_dec _ _); cbn; lra. }
  clearbody r1.
  set (r2 := if Rgt_dec (x r1 + radius r1) (width cv) then bounceRight cv r1 else r1).
  assert (H2 : radius r2 = radius rock ∧ radius rock <= x r2 <= width cv - radius rock).
  { subst r2. destruct (Rgt_dec _ _); cbn; lra. }
  clearbody r2.
  set (r3 := if Rlt_dec (y r2 - radius r2) 0 then bounceTop r2 else r2).
  assert (H3 : radius r3 = radius rock ∧ x r3 = x r2 ∧ radius rock <= y r3).
  { subst r3. destruct (Rlt_dec _ _); cbn; lra. }
  clearbody r3.
  destruct (Rgt_dec _ _); cbn; lra.
Qed.
End WallPhase.

(** ** The pairwise collision *)

Lemma collide_Some (rock other : Rock) :
  mass rock + mass other ≠ 0 →
  ∃ rock' other',
    collide rock other = Some (rock', other')
    ∧ static rock' = static rock ∧ static other' = static other
    ∧ rotation rock' = rotation rock ∧ rotationSpeed rock' = rotationSpeed rock
    ∧ rotation other' = rotation other ∧ rotationSpeed other' = rotationSpeed other
    ∧ vx rock' = (vx rock * (mass rock - mass other) + 2 * mass other * vx other)
                 / (mass rock + mass other) * 0.8
    ∧ vy rock' = (vy rock * (mass rock - mass other) + 2 * mass other * vy other)
                 / (mass rock + mass other) * 0.8
    ∧ vx other' = (vx other * (mass other - mass rock) + 2 * mass rock * vx rock)
                  / (mass rock + mass other) * 0.8
    ∧ vy other' = (vy other * (mass other - mass rock) + 2 * mass rock * vy rock)
                  / (mass rock + mass other) * 0.8
    ∧ x other' - x other = x rock - x rock'
    ∧ y other' - y other = y rock - y rock'.
Proof.
  intros HM. unfold collide. cbn [mass set_x set_y].
  rewrite !js_div_Some by exact HM. cbn.
  eexists _, _. split; [reflexivity |]. cbn.
  repeat split; lra.
Qed.

Lemma checkPair_overlapping (rock other : Rock) :
  overlapping rock other →
  checkPair rock other = (ro ← collide rock other; Some (ro.1, ro.2, true)).
Proof.
  unfold overlapping, checkPair. intros Hov.
  destruct (Rlt_dec _ _) as [_ | Hn]; [| contradiction].
  destruct (collide rock other) as [[rock' other'] |]; reflexivity.
Qed.

Lemma checkPair_apart (rock other : Rock) :
  ¬ overlapping rock other → checkPair rock other = Some (rock, other, false).
Proof.
  unfold overlapping, checkPair. intros Hov.
  destruct (Rlt_dec _ _) as [Hn | _]; [contradiction | reflexivity].
Qed.

Lemma checkPair_spec (rock other : Rock) :
  positive_mass rock → positive_mass other →
  ∃ rock' other' hit,
    checkPair rock other = Some (rock', other', hit)
    ∧ static rock' = static rock ∧ static other' = static other
    ∧ (hit = false → rock' = rock ∧ other' = other).
Proof.
  unfold positive_mass. intros Hm Hm'. unfold checkPair.
  destruct (Rlt_dec _ _) as [Hov | Hov].
  - assert (HM : mass rock + mass other ≠ 0) by lra.
    destruct (collide_Some rock other HM) as (rock' & other' & E & Hs & Hs' & _).
    exists rock', other', true. rewrite E. simpl.
    repeat split; try assumption; discriminate.
  - exists rock, other, false. repeat split.
Qed.

Lemma centre_distance_coincident (rock other : Rock) :
  x other = x rock → y other = y rock →
  sqrt ((x other - x rock) * (x other - x rock)
        + (y other - y rock) * (y other - y rock)) = 0.
Proof.
  intros Hx Hy. rewrite Hx, Hy.
  replace ((x rock - x rock) * (x rock - x rock)
           + (y rock - y rock) * (y rock - y rock)) with 0 by ring.
  apply sqrt_0.
Qed.

Lemma overlapping_coincident (rock other : Rock) :
  x other = x rock → y other = y rock → 0 < radius rock + radius other →
  overlapping rock other.
Proof.
  intros Hx Hy Hr. unfold overlapping.
  rewrite centre_distance_coincident by assumption. exact Hr.
Qed.

(** C10.  When two rocks overlap and their total mass is not zero, the
    check resolves the collision, and the momentum of the pair after the
    response is 0.8 times the momentum before it, on the x component and on
    the y component. *)
Theorem collision_scales_momentum (rock other : Rock) :
  overlapping rock other →
  mass rock + mass other ≠ 0 →
  ∃ rock' other',
    checkPair rock other = Some (rock', other', true)
    ∧ mass rock' * vx rock' + mass other' * vx other'
      = 0.8 * (mass rock * vx rock + mass other * vx other)
    ∧ mass rock' * vy rock' + mass other' * vy other'
      = 0.8 * (mass rock * vy rock + mass other * vy other).
Proof.
  intros Hov HM.
  destruct (collide_Some rock other HM)
    as (rock' & other' & E & Hs & Hs' & _ & _ & _ & _ & Evx & Evy & Evx' & Evy' & _).
  exists rock', other'. rewrite checkPair_overlapping, E by exact Hov.
  split; [reflexivity |].
  apply static_eq in Hs as (_ & _ & _ & -> & _).
  apply static_eq in Hs' as (_ & _ & _ & -> & _).
  rewrite Evx, Evy, Evx', Evy'. split; field; exact HM.
Qed.

Lemma collision_scales_momentum_witness :
  (overlapping (scenarioRock 1 0) (scenarioRock 2 0)
   ∧ mass (scenarioRock 1 0) + mass (scenarioRock 2 0) ≠ 0)
  ∧ ∃ rock' other',
      checkPair (scenarioRock 1 0) (scenarioRock 2 0) = Some (rock', other', true)
      ∧ mass rock' * vx rock' + mass other' * vx other'
        = 0.8 * (mass (scenarioRock 1 0) * vx (scenarioRock 1 0)
                 + mass (scenarioRock 2 0) * vx (scenarioRock 2 0))
      ∧ mass rock' * vy rock' + mass other' * vy other'
        = 0.8 * (mass (scenarioRock 1 0) * vy (scenarioRock 1 0)
                 + mass (scenarioRock 2 0) * vy (scenarioRock 2 0)).
Proof.
  assert (Hov : overlapping (scenarioRock 1 0) (scenarioRock 2 0))
    by (apply overlapping_coincident; simpl; lra).
  assert (HM : mass (scenarioRock 1 0) + mass (scenarioRock 2 0) ≠ 0) by (simpl; lra).
  split; [split; assumption |].
  apply (collision_scales_momentum (scenarioRock 1 0) (scenarioRock 2 0) Hov HM).
Defined.

(** The collision response is an elastic exchange on each component, which
    keeps the kinetic energy, followed by the factor 0.8 on every velocity. *)
Lemma collide_energy (rock other : Rock) :
  mass rock + mass other ≠ 0 →
  ∃ rock' other',
    collide rock other = Some (rock', other')
    ∧ kineticEnergy rock' + kineticEnergy other'
      = 0.8 * 0.8 * (kineticEnergy rock + kineticEnergy other).
Proof.
  intros HM.
  destruct (collide_Some rock other HM)
    as (rock' & other' & E & Hs & Hs' & _ & _ & _ & _ & Evx & Evy & Evx' & Evy' & _).
  exists rock', other'. split; [exact E |].
  apply static_eq in Hs as (_ & _ & _ & Em & _).
  apply static_eq in Hs' as (_ & _ & _ & Em' & _).
  unfold kineticEnergy. rewrite Em, Em', Evx, Evy, Evx', Evy'. field. exact HM.
Qed.

(** C2.  For rocks of positive mass, each of the four wall responses, and
    the whole wall phase, leaves the kinetic energy of the rock less than or
    equal to what it was; and the pairwise collision response succeeds and
    leaves the sum of the kinetic energies of the two rocks less than or
    equal to what it was. *)
Theorem collisions_do_not_add_energy (cv : Canvas) (rock other : Rock) :
  positive_mass rock → positive_mass other →
  kineticEnergy (bounceLeft rock) <= kineticEnergy rock
  ∧ kineticEnergy (bounceRight cv rock) <= kineticEnergy rock
  ∧ kineticEnergy (bounceTop rock) <= kineticEnergy rock
  ∧ kineticEnergy (bounceBottom cv rock) <= kineticEnergy rock
  ∧ kineticEnergy (bounceWalls cv rock) <= kineticEnergy rock
  ∧ ∃ rock' other',
      collide rock other = Some (rock', other')
      ∧ kineticEnergy rock' + kineticEnergy other'
        <= kineticEnergy rock + kineticEnergy other.
Proof.
  unfold positive_mass. intros Hm Hm'.
  split; [apply bounceLeft_energy; lra |].
  split; [apply bounceRight_energy; lra |].
  split; [apply bounceTop_energy; lra |].
  split; [apply bounceBottom_energy; lra |].
  split; [apply bounceWalls_energy; lra |].
  assert (HM : mass rock + mass other ≠ 0) by lra.
  destruct (collide_energy rock other HM) as (rock' & other' & E & HE).
  exists rock', other'. split; [exact E |]. rewrite HE.
  assert (0 <= kineticEnergy rock) by (apply kineticEnergy_nonneg; lra).
  assert (0 <= kineticEnergy other) by (apply kineticEnergy_nonneg; lra).
  lra.
Qed.

Lemma collisions_do_not_add_energy_witness :
  (positive_mass (scenarioRock 1 0) ∧ positive_mass (scenarioRock 2 0))
  ∧ kineticEnergy (bounceLeft (scenarioRock 1 0)) <= kineticEnergy (scenarioRock 1 0)
  ∧ kineticEnergy (bounceRight scenarioCanvas (scenarioRock 1 0))
    <= kineticEnergy (scenarioRock 1 0)
  ∧ kineticEnergy (bounceTop (scenarioRock 1 0)) <= kineticEnergy (scenarioRock 1 0)
  ∧ kineticEnergy (bounceBottom scenarioCanvas (scenarioRock 1 0))
    <= kineticEnergy (scenarioRock 1 0)
  ∧ kineticEnergy (bounceWalls scenarioCanvas (scenarioRock 1 0))
    <= kineticEnergy (scenarioRock 1 0)
  ∧ ∃ rock' other',
      collide (scenarioRock 1 0) (scenarioRock 2 0) = Some (rock', other')
      ∧ kineticEnergy rock' + kineticEnergy other'
        <= kineticEnergy (scenarioRock 1 0) + kineticEnergy (scenarioRock 2 0).
Proof.
  assert (H1 : positive_mass (scenarioRock 1 0)) by (unfold positive_mass; simpl; lra).
  assert (H2 : positive_mass (scenarioRock 2 0)) by (unfold positive_mass; simpl; lra).
  split; [split; assumption |].
  apply (collisions_do_not_add_energy scenarioCanvas (scenarioRock 1 0) (scenarioRock 2 0)
           H1 H2).
Defined.

(** C4.  Two rocks with the same centre, positive radii and a total mass
    that is not zero: the check finds them overlapping and the response
    succeeds, so no division by zero happens.  The first rock is moved by
    half the sum of the radii towards negative x, the second by as much
    towards positive x, neither is moved in y, and the four velocity
    components are the quotients by the total mass. *)
Theorem coincident_centres_resolve (rock other : Rock) :
  x other = x rock → y other = y rock →
  0 < radius rock → 0 < radius other →
  mass rock + mass other ≠ 0 →
  ∃ rock' other',
    checkPair rock other = Some (rock', other', true)
    ∧ x rock' = x rock - (radius rock + radius other) * 0.5
    ∧ y rock' = y rock
    ∧ x other' = x other + (radius rock + radius other) * 0.5
    ∧ y other' = y other
    ∧ vx rock' = (vx rock * (mass rock - mass other) + 2 * mass other * vx other)
                 / (mass rock + mass other) * 0.8
    ∧ vy rock' = (vy rock * (mass rock - mass other) + 2 * mass other * vy other)
                 / (mass rock + mass other) * 0.8
    ∧ vx other' = (vx other * (mass other - mass rock) + 2 * mass rock * vx rock)
                  / (mass rock + mass other) * 0.8
    ∧ vy other' = (vy other * (mass other - mass rock) + 2 * mass rock * vy rock)
                  / (mass rock + mass other) * 0.8.
Proof.
  intros Hx Hy Hr Hr' HM.
  pose proof (centre_distance_coincident rock other Hx Hy) as Hd.
  assert (Hov : overlapping rock other) by (apply overlapping_coincident; lra).
  rewrite checkPair_overlapping by exact Hov.
  unfold collide. rewrite Hd. cbn [mass set_x set_y].
  rewrite !js_div_Some by exact HM.
  rewrite Hx, Hy. replace (x rock - x rock) with 0 by ring.
  replace (y rock - y rock) with 0 by ring.
  rewrite Math_atan2_0_0, cos_0, sin_0. cbn.
  eexists _, _. split; [reflexivity |]. cbn. repeat split; lra.
Qed.

Lemma coincident_centres_resolve_witness :
  (x (scenarioRock 2 0) = x (scenarioRock 1 0)
   ∧ y (scenarioRock 2 0) = y (scenarioRock 1 0)
   ∧ 0 < radius (scenarioRock 1 0) ∧ 0 < radius (scenarioRock 2 0)
   ∧ mass (scenarioRock 1 0) + mass (scenarioRock 2 0) ≠ 0)
  ∧ ∃ rock' other',
      checkPair (scenarioRock 1 0) (scenarioRock 2 0) = Some (rock', other', true)
      ∧ x rock' = 100 - (20 + 20) * 0.5
      ∧ y rock' = 100
      ∧ x other' = 100 + (20 + 20) * 0.5
      ∧ y other' = 100
      ∧ vx rock' = (0 * (24 - 24) + 2 * 24 * 0) / (24 + 24) * 0.8
      ∧ vy rock' = (0 * (24 - 24) + 2 * 24 * 0) / (24 + 24) * 0.8
      ∧ vx other' = (0 * (24 - 24) + 2 * 24 * 0) / (24 + 24) * 0.8
      ∧ vy other' = (0 * (24 - 24) + 2 * 24 * 0) / (24 + 24) * 0.8.
Proof.
  assert (Hr : 0 < radius (scenarioRock 1 0)) by (simpl; lra).
  assert (Hr' : 0 < radius (scenarioRock 2 0)) by (simpl; lra).
  assert (HM : mass (scenarioRock 1 0) + mass (scenarioRock 2 0) ≠ 0) by (simpl; lra).
  split; [repeat split; assumption |].
  apply (coincident_centres_resolve (scenarioRock 1 0) (scenarioRock 2 0)
           eq_refl eq_refl Hr Hr' HM).
Defined.

(** ** The two loops *)

(** Invariant rule of the counted loop: an invariant that every iteration
    re-establishes, returning normally, holds when the loop ends, and the loop
    returns normally. *)
Lemma for_range_inv {St : Type} (body : nat → St → option St) (P : nat → St → Prop) :
  ∀ (count start : nat) (s : St),
    P start s →
    (∀ j s1, (start ≤ j < start + count)%nat → P j s1 →
             ∃ s2, body j s1 = Some s2 ∧ P (S j) s2) →
    ∃ s', for_range body start count s = Some s' ∧ P (start + count)%nat s'.
Proof.
  induction count as [| count IH]; intros start s HP Hstep; simpl.
  - exists s. rewrite Nat.add_0_r. split; [reflexivity | exact HP].
  - destruct (Hstep start s) as (s1 & E1 & HP1); [lia | exact HP |].
    rewrite E1. simpl.
    destruct (IH (S start) s1 HP1) as (s' & E' & HP').
    { intros j s2 Hj. apply Hstep. lia. }
    exists s'. split; [exact E' |].
    replace (start + S count)%nat with (S start + count)%nat by lia. exact HP'.
Qed.

Lemma positive_mass_static (rs rs' : list Rock) :
  static <$> rs' = static <$> rs →
  Forall positive_mass rs → Forall positive_mass rs'.
Proof.
  intros E H.
  assert (Hc : ∀ l, Forall positive_mass l ↔ Forall (λ s, 0 < s.1.2) (static <$> l)).
  { intros l. rewrite Forall_fmap. reflexivity. }
  apply Hc. rewrite E. apply Hc. exact H.
Qed.

Lemma insert_static (rs : list Rock) (i : nat) (rock rock' : Rock) :
  rs !! i = Some rock → static rock' = static rock →
  static <$> <[i := rock']> rs = static <$> rs.
Proof.
  intros Hi Hs. rewrite list_fmap_insert. apply list_insert_id.
  rewrite list_lookup_fmap, Hi, Hs. reflexivity.
Qed.

(** One iteration of the inner loop on rocks of positive mass: it returns
    normally, logs one check, writes only the rocks at [index] and [j], keeps
    their static fields, and writes nothing new when the rocks do not collide. *)
Lemma pairStep_spec (index j : nat) (rs : list Rock) (log : list PairCheck) :
  (index < j < length rs)%nat →
  Forall positive_mass rs →
  ∃ rs' hit,
    pairStep index j (rs, log) = Some (rs', log ++ [mkPairCheck index j hit])
    ∧ length rs' = length rs
    ∧ static <$> rs' = static <$> rs
    ∧ (∀ k, k ≠ index → k ≠ j → rs' !! k = rs !! k)
    ∧ (hit = false → rs' = rs).
Proof.
  intros [Hij Hj] Hpos.
  destruct (lookup_lt_is_Some_2 rs index) as [rock Hrock]; [lia |].
  destruct (lookup_lt_is_Some_2 rs j) as [other Hother]; [lia |].
  assert (Hm : positive_mass rock)
    by (rewrite Forall_lookup in Hpos; exact (Hpos _ _ Hrock)).
  assert (Hm' : positive_mass other)
    by (rewrite Forall_lookup in Hpos; exact (Hpos _ _ Hother)).
  destruct (checkPair_spec rock other Hm Hm')
    as (rock' & other' & hit & E & Hs & Hs' & Hsame).
  exists (<[j := other']> (<[index := rock']> rs)), hit.
  assert (Hother1 : <[index := rock']> rs !! j = Some other)
    by (rewrite list_lookup_insert_ne by lia; exact Hother).
  split; [| split; [| split; [| split]]].
  - unfold pairStep. simpl. rewrite Hrock. simpl. rewrite Hother. simpl.
    rewrite E. reflexivity.
  - rewrite !length_insert. reflexivity.
  - rewrite (insert_static _ _ other) by assumption.
    apply (insert_static _ _ rock); assumption.
  - intros k Hk Hk'. rewrite !list_lookup_insert_ne by congruence. reflexivity.
  - intros Hhit. destruct (Hsame Hhit) as [-> ->].
    rewrite (list_insert_id rs index rock) by exact Hrock.
    apply list_insert_id. exact Hother.
Qed.

Lemma rowChecks_snoc (index j0 : nat) (hits : list bool) (hit : bool) :
  rowChecks index j0 (hits ++ [hit])
  = rowChecks index j0 hits ++ [mkPairCheck index (j0 + length hits) hit].
Proof.
  unfold rowChecks. rewrite length_app. simpl.
  rewrite Nat.add_1_r, seq_S, zip_with_app by (rewrite length_seq; reflexivity).
  reflexivity.
Qed.

(** The inner loop of row [index]: one check per [j] from [index + 1] to the
    end of the array, in this order; rocks before [index] are not touched. *)
Lemma pairLoop_spec (index : nat) (rs0 : list Rock) (log0 : list PairCheck) :
  (index < length rs0)%nat →
  Forall positive_mass rs0 →
  ∃ rs' hits,
    for_range (pairStep index) (index + 1) (length rs0 - (index + 1)) (rs0, log0)
      = Some (rs', log0 ++ rowChecks index (index + 1) hits)
    ∧ length hits = (length rs0 - (index + 1))%nat
    ∧ length rs' = length rs0
    ∧ static <$> rs' = static <$> rs0
    ∧ (∀ k, (k < index)%nat → rs' !! k = rs0 !! k)
    ∧ (Forall (λ h, h = false) hits → rs' = rs0).
Proof.
  intros Hindex Hpos.
  pose (P := λ (j : nat) (w : World),
    ∃ hits, w.2 = log0 ++ rowChecks index (index + 1) hits
            ∧ (index + 1 + length hits = j)%nat
            ∧ length w.1 = length rs0
            ∧ static <$> w.1 = static <$> rs0
            ∧ (∀ k, (k < index)%nat → w.1 !! k = rs0 !! k)
            ∧ (Forall (λ h, h = false) hits → w.1 = rs0)).
  destruct (for_range_inv (pairStep index) P (length rs0 - (index + 1)) (index + 1)
              (rs0, log0)) as ([rs' log'] & E & hits & Hlog & Hlen & Hl & Hs & Hk & Hid).
  - exists []. simpl. rewrite app_nil_r. repeat split; try reflexivity. lia.
  - intros j [rs log] Hj (hits & Hlog & Hlen & Hl & Hs & Hk & Hid). simpl in *.
    destruct (pairStep_spec index j rs log) as (rs2 & hit & E & Hl2 & Hs2 & Hk2 & Hid2).
    { lia. }
    { apply (positive_mass_static rs0); assumption. }
    exists (rs2, log ++ [mkPairCheck index j hit]). split; [exact E |].
    exists (hits ++ [hit]). simpl.
    split; [| split; [| split; [| split; [| split]]]].
    + rewrite rowChecks_snoc, Hlog, Hlen, app_assoc. reflexivity.
    + rewrite length_app. simpl. lia.
    + congruence.
    + congruence.
    + intros k Hlt. rewrite Hk2 by lia. apply Hk. exact Hlt.
    + intros Hall. apply Forall_app in Hall as [Hall Hhit].
      apply Forall_inv in Hhit. rewrite Hid2 by exact Hhit. apply Hid. exact Hall.
  - simpl in *. exists rs', hits. rewrite E, Hlog.
    repeat split; try assumption; try reflexivity. lia.
Qed.

Lemma rowChecks_pairs (index j0 : nat) (hits : list bool) :
  pc_pair <$> rowChecks index j0 hits = pair index <$> seq j0 (length hits).
Proof.
  unfold rowChecks. revert j0. induction hits as [| h hits IH]; intros j0; simpl.
  - reflexivity.
  - rewrite IH. reflexivity.
Qed.

Lemma rowChecks_no_hit (index j0 : nat) (hits : list bool) :
  (∀ e, e ∈ rowChecks index j0 hits → pc_hit e = false) →
  Forall (λ h, h = false) hits.
Proof.
  unfold rowChecks. revert j0. induction hits as [| h hits IH]; intros j0 H; simpl in *.
  - constructor.
  - constructor.
    + apply (H (mkPairCheck index j0 h)). left.
    + apply (IH (S j0)). intros e He. apply H. right. exact He.
Qed.

Lemma rowChecks_row (index j0 : nat) (hits : list bool) (e : PairCheck) :
  e ∈ rowChecks index j0 hits → pc_i e = index.
Proof.
  intros He. apply (list_elem_of_fmap_2 pc_pair) in He.
  rewrite rowChecks_pairs in He.
  apply list_elem_of_fmap in He as (j & E & _).
  unfold pc_pair in E. congruence.
Qed.

Lemma pairsUpto_S (n k : nat) : pairsUpto n (S k) = pairsUpto n k ++ rowPairs n k.
Proof.
  unfold pairsUpto. rewrite seq_S, fmap_app, concat_app. simpl.
  rewrite app_nil_r. reflexivity.
Qed.

Lemma pairsUpto_row (n k : nat) (p : nat * nat) :
  p ∈ pairsUpto n k ↔ (p.1 < k ∧ p.1 < p.2 < n)%nat.
Proof.
  induction k as [| k IH].
  - unfold pairsUpto. simpl. split; [intros H; inversion H | lia].
  - rewrite pairsUpto_S, elem_of_app, IH. unfold rowPairs.
    rewrite list_elem_of_fmap. split.
    + intros [H | (j & -> & Hj)]; [lia |]. apply elem_of_seq in Hj. simpl. lia.
    + intros [H1 H2]. destruct (decide (p.1 < k)%nat) as [Hlt | Hge]; [left; lia |].
      right. exists p.2. split; [destruct p; simpl in *; f_equal; lia |].
      apply elem_of_seq. lia.
Qed.

(** The callback of [forEach] at [index]: the rock is moved and bounced off
    the walls, then the inner loop runs; when no check collides the rock at
    [index] is left as the wall phase made it. *)
Lemma processRock_spec (cv : Canvas) (index : nat) (rs : list Rock) (log : list PairCheck) :
  (index < length rs)%nat →
  Forall positive_mass rs →
  ∃ rock rs' hits,
    rs !! index = Some rock
    ∧ processRock cv index (rs, log) = Some (rs', log ++ rowChecks index (index + 1) hits)
    ∧ length hits = (length rs - (index + 1))%nat
    ∧ length rs' = length rs
    ∧ static <$> rs' = static <$> rs
    ∧ (∀ k, (k < index)%nat → rs' !! k = rs !! k)
    ∧ (Forall (λ h, h = false) hits →
       rs' !! index = Some (bounceWalls cv (integrate rock))).
Proof.
  intros Hindex Hpos.
  destruct (lookup_lt_is_Some_2 rs index Hindex) as [rock Hrock].
  set (rock1 := bounceWalls cv (integrate rock)).
  assert (Hs1 : static <$> <[index := rock1]> rs = static <$> rs).
  { apply (insert_static _ _ rock); [exact Hrock |].
    subst rock1. rewrite bounceWalls_static. apply integrate_static. }
  destruct (pairLoop_spec index (<[index := rock1]> rs) log)
    as (rs' & hits & E & Hlen & Hl & Hs & Hk & Hid).
  { rewrite length_insert. exact Hindex. }
  { apply (positive_mass_static rs); assumption. }
  rewrite length_insert in Hlen, Hl, E.
  exists rock, rs', hits.
  split; [exact Hrock |]. split.
  { unfold processRock. simpl. rewrite Hrock. simpl. rewrite length_insert. exact E. }
  split; [exact Hlen |]. split; [exact Hl |]. split; [congruence |]. split.
  - intros k Hlt. rewrite Hk by exact Hlt. apply list_lookup_insert_ne. lia.
  - intros Hall. rewrite (Hid Hall). apply list_lookup_insert_eq. exact Hindex.
Qed.

(** The whole step.  The invariant of the outer loop at [index]: the trace
    holds the pairs of the rows before [index], and every rock before [index]
    whose row logged no collision is inside the canvas. *)
Lemma updatePhysics_spec (cv : Canvas) (rs : list Rock) :
  Forall positive_mass rs →
  ∃ rs' log,
    updatePhysics (Some cv) rs = Some (rs', log)
    ∧ length rs' = length rs
    ∧ static <$> rs' = static <$> rs
    ∧ pc_pair <$> log = pairsUpto (length rs) (length rs)
    ∧ (∀ k rock, rs' !! k = Some rock →
         (∀ e, e ∈ log → pc_i e = k → pc_hit e = false) →
         2 * radius rock <= width cv → 2 * radius rock <= height cv →
         inBounds cv rock).
Proof.
  intros Hpos.
  pose (Q := λ (index : nat) (w : World),
    length w.1 = length rs
    ∧ static <$> w.1 = static <$> rs
    ∧ pc_pair <$> w.2 = pairsUpto (length rs) index
    ∧ (∀ k rock, (k < index)%nat → w.1 !! k = Some rock →
         (∀ e, e ∈ w.2 → pc_i e = k → pc_hit e = false) →
         2 * radius rock <= width cv → 2 * radius rock <= height cv →
         inBounds cv rock)).
  destruct (for_range_inv (processRock cv) Q (length rs) 0 (rs, []))
    as ([rs' log] & E & Hl & Hs & Hp & Hb).
  - do 3 (split; [reflexivity |]). intros k rock Hk. lia.
  - intros index [rs1 log1] Hindex (Hl & Hs & Hp & Hb). simpl in *.
    destruct (processRock_spec cv index rs1 log1)
      as (rock0 & rs2 & hits & Hrock0 & E & Hlen & Hl2 & Hs2 & Hk2 & Hwall).
    { lia. }
    { apply (positive_mass_static rs); assumption. }
    eexists. split; [exact E |]. unfold Q. simpl.
    split; [congruence |]. split; [congruence |]. split.
    + rewrite fmap_app, Hp, rowChecks_pairs, pairsUpto_S, Hlen, Hl.
      reflexivity.
    + intros k rock Hk Hlook Hquiet HW HH.
      destruct (decide (k < index)%nat) as [Hlt | Hge].
      * rewrite Hk2 in Hlook by exact Hlt.
        apply (Hb k rock Hlt Hlook); [| exact HW | exact HH].
        intros e He. apply Hquiet, elem_of_app. left. exact He.
      * assert (k = index) as -> by lia.
        assert (Hall : Forall (λ h, h = false) hits).
        { apply (rowChecks_no_hit index (index + 1)). intros e He.
          apply Hquiet; [apply elem_of_app; right; exact He |].
          apply (rowChecks_row _ _ _ _ He). }
        rewrite (Hwall Hall) in Hlook. injection Hlook as <-.
        assert (Hr : radius (bounceWalls cv (integrate rock0)) = radius (integrate rock0)).
        { pose proof (bounceWalls_static cv (integrate rock0)) as Hst.
          apply static_eq in Hst. tauto. }
        rewrite Hr in HW, HH. apply bounceWalls_inBounds; assumption.
  - simpl in *. exists rs', log. unfold updatePhysics. rewrite E.
    split; [reflexivity |]. split; [exact Hl |]. split; [exact Hs |].
    split; [exact Hp |].
    intros k rock Hlook. apply Hb; [| exact Hlook].
    rewrite <- Hl. apply (lookup_lt_Some _ _ _ Hlook).
Qed.





(** The rocks made by a sequence of spawns have positive mass, and the
    physics step keeps the masses: the hypothesis of the theorems below holds
    in every state the component reaches. *)
Lemma spawnAll_positive_mass (calls : list Spawn) (s s' : Sim) :
  Forall random_ok calls →
  Forall positive_mass (rocks s) →
  spawnAll calls s = Some s' →
  Forall positive_mass (rocks s').
Proof.
  intros Hok. revert s. induction Hok as [| a rest Ha _ IH]; intros s Hpos E; simpl in E.
  - injection E as <-. exact Hpos.
  - destruct (spawn a s) as [s1 |] eqn:E1; [| discriminate]. simpl in E.
    apply (IH s1); [| exact E].
    destruct Ha as (H1 & H2 & _).
    exact (createRock_positive_mass _ _ _ _ _ _ _ _ _ _ _ H1 H2 Hpos E1).
Qed.

Lemma updatePhysics_positive_mass (cv : Canvas) (rs : list Rock) :
  Forall positive_mass rs →
  ∃ rs' log, updatePhysics (Some cv) rs = Some (rs', log) ∧ Forall positive_mass rs'.
Proof.
  intros Hpos.
  destruct (updatePhysics_spec cv rs Hpos) as (rs' & log & E & _ & Hs & _).
  exists rs', log. split; [exact E |]. apply (positive_mass_static rs); assumption.
Qed.



(** C1, amended.  One physics step over rocks of positive mass succeeds and
    keeps their number.  Afterwards the centre of a rock is inside the canvas
    ([radius <= x <= width - radius] and [radius <= y <= height - radius])
    whenever the canvas is at least twice the radius of that rock in both
    dimensions and no pairwise collision was resolved in the inner loop of
    that rock, which runs after its wall tests. *)
Theorem rock_in_bounds_unless_pushed_after_walls (cv : Canvas) (rs : list Rock) :
  Forall positive_mass rs →
  ∃ rs' log,
    updatePhysics (Some cv) rs = Some (rs', log)
    ∧ length rs' = length rs
    ∧ (∀ k rock, rs' !! k = Some rock →
         2 * radius rock <= width cv → 2 * radius rock <= height cv →
         (∀ e, e ∈ log → pc_i e = k → pc_hit e = false) →
         inBounds cv rock).
Proof.
  intros Hpos.
  destruct (updatePhysics_spec cv rs Hpos) as (rs' & log & E & Hl & _ & _ & Hb).
  exists rs', log. split; [exact E |]. split; [exact Hl |].
  intros k rock Hlook HW HH Hquiet. apply (Hb k rock); assumption.
Qed.

Lemma rock_in_bounds_unless_pushed_after_walls_witness :
  Forall positive_mass [scenarioRock 1 0; scenarioRock 2 0]
  ∧ ∃ rs' log,
      updatePhysics (Some scenarioCanvas) [scenarioRock 1 0; scenarioRock 2 0]
        = Some (rs', log)
      ∧ length rs' = 2%nat
      ∧ (∀ k rock, rs' !! k = Some rock →
           2 * radius rock <= 400 → 2 * radius rock <= 400 →
           (∀ e, e ∈ log → pc_i e = k → pc_hit e = false) →
           inBounds scenarioCanvas rock).
Proof.
  assert (Hpos : Forall positive_mass [scenarioRock 1 0; scenarioRock 2 0])
    by (repeat constructor; unfold positive_mass; simpl; lra).
  split; [exact Hpos |].
  apply (rock_in_bounds_unless_pushed_after_walls scenarioCanvas _ Hpos).
Defined.

(** ** Concrete runs *)

Lemma updatePhysics_singleton (cv : Canvas) (rock : Rock) :
  updatePhysics (Some cv) [rock] = Some ([bounceWalls cv (integrate rock)], []).
Proof. reflexivity. Qed.

Lemma processRock_unfold (cv : Canvas) (index : nat) (w : World) (rock : Rock) :
  w.1 !! index = Some rock →
  processRock cv index w =
  for_range (pairStep index) (index + 1) (length w.1 - (index + 1))
            (<[index := bounceWalls cv (integrate rock)]> w.1, w.2).
Proof. intros E. unfold processRock. rewrite E. simpl. rewrite length_insert. reflexivity. Qed.

Lemma updatePhysics_two (cv : Canvas) (a b : Rock) :
  updatePhysics (Some cv) [a; b] =
  match checkPair (bounceWalls cv (integrate a)) b with
  | Some (a2, b1, hit) =>
      Some ([a2; bounceWalls cv (integrate b1)], [mkPairCheck 0 1 hit])
  | None => None
  end.
Proof.
  unfold updatePhysics. simpl.
  rewrite (processRock_unfold cv 0 _ a) by reflexivity. simpl.
  unfold pairStep at 1. simpl.
  destruct (checkPair (bounceWalls cv (integrate a)) b) as [[[a2 b1] hit] |];
    reflexivity.
Qed.

Lemma scenario_step (i rs : R) :
  updatePhysics (Some scenarioCanvas) [scenarioRock i rs] =
  Some ([mkRock i 100 100.4995 0 0.4995 20 "#8B7355" rs rs 24 granite], []).
Proof.
  rewrite updatePhysics_singleton.
  rewrite bounceWalls_inside; try (rewrite integrate_fields; wall_tests).
  rewrite integrate_fields. unfold gravity, airResistance, scenarioRock. simpl.
  do 3 f_equal. f_equal; lra.
Qed.

(** C7, counterexample.  The rock of the scenario, after one step on the
    400 x 400 canvas, has neither [vy = 0.5] nor [y = 100.5]: air resistance
    is applied to the velocity before the position is updated. *)
Lemma scenario_vy_is_not_half :
  ∃ s rock',
    createRock 0 0 0.2 0 0.5 100 100 0 0 initial = Some s
    ∧ updatePhysics (Some scenarioCanvas) (rocks s) = Some ([rock'], [])
    ∧ vy rock' ≠ 0.5 ∧ y rock' ≠ 100.5.
Proof.
  eexists _, _. split; [apply createRock_granite_20 |]. simpl.
  split; [apply scenario_step |]. simpl. split; lra.
Qed.

(** C7, amended.  A single rock spawned at (100, 100) with velocity (0, 0),
    radius 20 and material granite: one step on the 400 x 400 canvas yields
    [vy = 0.4995] (that is, (0 + 0.5) * 0.999) and [y = 100.4995], with [x]
    and [vx] unchanged, and none of the four wall tests is true. *)
Theorem scenario_one_step (now : Z) (u_id u_rot : R) :
  ∃ s rock rock',
    createRock now 0 0.2 u_id u_rot 100 100 0 0 initial = Some s
    ∧ rocks s = [rock]
    ∧ radius rock = 20 ∧ type rock = granite
    ∧ updatePhysics (Some scenarioCanvas) (rocks s) = Some ([rock'], [])
    ∧ vy rock' = 0.4995 ∧ y rock' = 100.4995
    ∧ x rock' = 100 ∧ vx rock' = 0
    ∧ ¬ hitsLeft (integrate rock) ∧ ¬ hitsRight scenarioCanvas (integrate rock)
    ∧ ¬ hitsTop (integrate rock) ∧ ¬ hitsBottom scenarioCanvas (integrate rock)
    ∧ rock' = integrate rock.
Proof.
  eexists _, _, _. split; [apply createRock_granite_20 |]. simpl.
  split; [reflexivity |]. do 2 (split; [reflexivity |]).
  split; [apply scenario_step |]. simpl.
  do 4 (split; [reflexivity |]).
  rewrite integrate_fields.
  unfold hitsLeft, hitsRight, hitsTop, hitsBottom, gravity, airResistance; simpl.
  repeat split; try lra. f_equal; lra.
Qed.

(** Two overlapping rocks at the same height, the second to the right of the
    first: the first is pushed left by half the overlap. *)
Lemma checkPair_side_by_side (rock other : Rock) :
  y other = y rock → x rock < x other →
  x other - x rock < radius rock + radius other →
  mass rock + mass other ≠ 0 →
  ∃ rock' other',
    checkPair rock other = Some (rock', other', true)
    ∧ static rock' = static rock
    ∧ x rock' = x rock - (radius rock + radius other - (x other - x rock)) * 0.5
    ∧ y rock' = y rock.
Proof.
  intros Hy Hx Hclose HM.
  assert (Hd : sqrt ((x other - x rock) * (x other - x rock)
                     + (y other - y rock) * (y other - y rock)) = x other - x rock).
  { rewrite Hy.
    replace ((x other - x rock) * (x other - x rock)
             + (y rock - y rock) * (y rock - y rock))
      with ((x other - x rock) * (x other - x rock)) by ring.
    apply sqrt_square. lra. }
  assert (Hov : overlapping rock other) by (unfold overlapping; rewrite Hd; lra).
  rewrite checkPair_overlapping by exact Hov.
  unfold collide. rewrite Hd. cbn [mass set_x set_y].
  rewrite !js_div_Some by exact HM.
  rewrite Hy. replace (y rock - y rock) with 0 by ring.
  rewrite Math_atan2_0_pos by lra. rewrite cos_0, sin_0. cbn.
  eexists _, _. split; [reflexivity |]. cbn. repeat split; lra.
Qed.

(** C1, counterexample.  Two rocks of radius 20 on the 400 x 400 canvas: the
    first stands at the left wall, the second overlaps it from the right.
    In one step the first rock passes its wall tests and is then pushed left
    by the collision with the second one, to [x = 5], less than its radius. *)
Lemma pushed_rock_ends_outside :
  ∃ s rs' log rock,
    spawnAll [pusherSpawn; pushedSpawn] initial = Some s
    ∧ Forall (λ r, 2 * radius r <= width scenarioCanvas
                   ∧ 2 * radius r <= height scenarioCanvas) (rocks s)
    ∧ updatePhysics (Some scenarioCanvas) (rocks s) = Some (rs', log)
    ∧ rs' !! 0%nat = Some rock
    ∧ x rock = 5 ∧ radius rock = 20
    ∧ ¬ inBounds scenarioCanvas rock.
Proof.
  set (a := mkRock (IZR 1 + 0) 20 100 0 (-0.5) 20 "#8B7355" 0 ((0.5 - 0.5) * 0.1) 24 granite).
  set (b := mkRock (IZR 2 + 0) 30 100 0 0 20 "#8B7355" 0 ((0.5 - 0.5) * 0.1) 24 granite).
  assert (Hs : spawnAll [pusherSpawn; pushedSpawn] initial = Some (mkSim [a; b] true 2)).
  { unfold spawnAll, spawn, pusherSpawn, pushedSpawn. simpl.
    rewrite createRock_granite_20. simpl. rewrite createRock_granite_20. reflexivity. }
  set (a1 := mkRock (IZR 1 + 0) 20 100 0 0 20 "#8B7355" ((0.5 - 0.5) * 0.1)
                    ((0.5 - 0.5) * 0.1) 24 granite).
  assert (Ha1 : bounceWalls scenarioCanvas (integrate a) = a1).
  { rewrite bounceWalls_inside; try (rewrite integrate_fields; wall_tests).
    rewrite integrate_fields. unfold gravity, airResistance, a, a1. simpl.
    f_equal; lra. }
  destruct (checkPair_side_by_side a1 b) as (a2 & b1 & E & Hst & Hx & _);
    [reflexivity | simpl; lra | simpl; lra | simpl; lra |].
  apply static_eq in Hst as (_ & Hr & _). simpl in Hx, Hr.
  assert (Hx5 : x a2 = 5) by lra.
  exists (mkSim [a; b] true 2), [a2; bounceWalls scenarioCanvas (integrate b1)],
    [mkPairCheck 0 1 true], a2.
  split; [exact Hs |]. split.
  { simpl. repeat constructor; simpl; lra. }
  split.
  { cbn [rocks]. rewrite updatePhysics_two, Ha1, E. reflexivity. }
  split; [reflexivity |]. split; [exact Hx5 |]. split; [exact Hr |].
  unfold inBounds. rewrite Hx5, Hr. lra.
Qed.

(** ** Further properties of the collision response *)


Lemma hypot_pos (dx dy : R) : dx ≠ 0 ∨ dy ≠ 0 → 0 < sqrt (dx * dx + dy * dy).
Proof. intros H. apply sqrt_lt_R0. nra. Qed.

Lemma sqrt_one_plus_slope (dx dy : R) :
  dx ≠ 0 →
  sqrt (1 + (dy / dx)²) = sqrt (dx * dx + dy * dy) / Rabs dx.
Proof.
  intros Hdx.
  replace (1 + (dy / dx)²) with ((dx * dx + dy * dy) / (dx * dx))
    by (unfold Rsqr; field; exact Hdx).
  rewrite sqrt_div_alt by nra.
  replace (dx * dx) with (dx²) by reflexivity.
  rewrite sqrt_Rsqr_abs. reflexivity.
Qed.

Lemma atan_polar (dx dy : R) :
  dx ≠ 0 →
  sqrt (dx * dx + dy * dy) * cos (atan (dy / dx)) = Rabs dx
  ∧ sqrt (dx * dx + dy * dy) * sin (atan (dy / dx)) = dy * (Rabs dx / dx).
Proof.
  intros Hdx.
  assert (Hd : 0 < sqrt (dx * dx + dy * dy)) by (apply hypot_pos; left; exact Hdx).
  assert (Ha : Rabs dx ≠ 0) by (apply Rabs_no_R0; exact Hdx).
  rewrite cos_atan, sin_atan, sqrt_one_plus_slope by exact Hdx.
  split; field; repeat split; try assumption; lra.
Qed.

(** [Math_atan2 dy dx] is the angle of the vector [(dx, dy)]. *)
Lemma Math_atan2_polar (dx dy : R) :
  sqrt (dx * dx + dy * dy) * cos (Math_atan2 dy dx) = dx
  ∧ sqrt (dx * dx + dy * dy) * sin (Math_atan2 dy dx) = dy.
Proof.
  unfold Math_atan2.
  destruct (Rlt_dec 0 dx) as [Hpos | Hnpos].
  - destruct (atan_polar dx dy) as [Hc Hs]; [lra |].
    rewrite Rabs_right in Hc, Hs by lra. rewrite Hc, Hs. split; [reflexivity | field; lra].
  - destruct (Rlt_dec dx 0) as [Hneg | Hnneg].
    + destruct (atan_polar dx dy) as [Hc Hs]; [lra |].
      rewrite Rabs_left in Hc, Hs by lra.
      assert (E : - dx / dx = -1) by (field; lra). rewrite E in Hs.
      destruct (Rle_dec 0 dy).
      * rewrite neg_cos, neg_sin. split; lra.
      * rewrite cos_minus, sin_minus, cos_PI, sin_PI. split; lra.
    + assert (dx = 0) as -> by lra.
      replace (0 * 0 + dy * dy) with (dy²) by (unfold Rsqr; ring).
      rewrite sqrt_Rsqr_abs.
      destruct (Rlt_dec 0 dy) as [Hy | Hny].
      * rewrite cos_PI2, sin_PI2, Rabs_right by lra. split; ring.
      * destruct (Rlt_dec dy 0) as [Hy | Hny'].
        -- rewrite cos_neg, sin_neg, cos_PI2, sin_PI2, Rabs_left by lra. split; ring.
        -- assert (dy = 0) as -> by lra. rewrite Rabs_R0. split; ring.
Qed.

Lemma collide_positions (rock other : Rock) :
  mass rock + mass other ≠ 0 →
  ∃ rock' other',
    collide rock other = Some (rock', other')
    ∧ static rock' = static rock ∧ static other' = static other
    ∧ x rock' = x rock - cos (Math_atan2 (y other - y rock) (x other - x rock))
                         * (radius rock + radius other - centreDistance rock other) * 0.5
    ∧ y rock' = y rock - sin (Math_atan2 (y other - y rock) (x other - x rock))
                         * (radius rock + radius other - centreDistance rock other) * 0.5
    ∧ x other' = x other + cos (Math_atan2 (y other - y rock) (x other - x rock))
                           * (radius rock + radius other - centreDistance rock other) * 0.5
    ∧ y other' = y other + sin (Math_atan2 (y other - y rock) (x other - x rock))
                           * (radius rock + radius other - centreDistance rock other) * 0.5.
Proof.
  intros HM. unfold collide, centreDistance. cbn [mass set_x set_y].
  rewrite !js_div_Some by exact HM. cbn.
  eexists _, _. split; [reflexivity |]. cbn. repeat split.
Qed.

(** X4.  When two overlapping rocks collide (total mass not zero), the
    positional correction leaves them exactly touching: the distance of their
    centres after the response is the sum of their radii. *)
Theorem collide_leaves_rocks_touching (rock other : Rock) :
  overlapping rock other →
  mass rock + mass other ≠ 0 →
  ∃ rock' other',
    checkPair rock other = Some (rock', other', true)
    ∧ centreDistance rock' other' = radius rock' + radius other'.
Proof.
  intros Hov HM.
  destruct (collide_positions rock other HM)
    as (rock' & other' & E & Hs & Hs' & Hx & Hy & Hx' & Hy').
  exists rock', other'. rewrite checkPair_overlapping, E by exact Hov.
  split; [reflexivity |].
  apply static_eq in Hs as (_ & Hr & _). apply static_eq in Hs' as (_ & Hr' & _).
  rewrite Hr, Hr'.
  destruct (Math_atan2_polar (x other - x rock) (y other - y rock)) as [Hc Hsn].
  fold (centreDistance rock other) in Hc, Hsn.
  assert (Hlt : centreDistance rock other < radius rock + radius other) by exact Hov.
  set (c := cos (Math_atan2 (y other - y rock) (x other - x rock))) in *.
  set (sn := sin (Math_atan2 (y other - y rock) (x other - x rock))) in *.
  set (d := centreDistance rock other) in *.
  set (m := radius rock + radius other) in *.
  assert (Hunit : sn * sn + c * c = 1) by (apply (sin2_cos2 _)).
  assert (Hd : 0 <= d) by (apply sqrt_pos).
  assert (Hm : 0 <= m) by lra.
  unfold centreDistance.
  replace ((x other' - x rock') * (x other' - x rock')
           + (y other' - y rock') * (y other' - y rock')) with (m * m).
  - apply sqrt_square. exact Hm.
  - rewrite Hx, Hy, Hx', Hy'.
    replace (x other + c * (m - d) * 0.5 - (x rock - c * (m - d) * 0.5))
      with (c * m) by lra.
    replace (y other + sn * (m - d) * 0.5 - (y rock - sn * (m - d) * 0.5))
      with (sn * m) by lra.
    nra.
Qed.

Lemma collide_leaves_rocks_touching_witness :
  (overlapping (scenarioRock 1 0) (scenarioRock 2 0)
   ∧ mass (scenarioRock 1 0) + mass (scenarioRock 2 0) ≠ 0)
  ∧ ∃ rock' other',
      checkPair (scenarioRock 1 0) (scenarioRock 2 0) = Some (rock', other', true)
      ∧ centreDistance rock' other' = radius rock' + radius other'.
Proof.
  assert (Hov : overlapping (scenarioRock 1 0) (scenarioRock 2 0))
    by (apply overlapping_coincident; simpl; lra).
  assert (HM : mass (scenarioRock 1 0) + mass (scenarioRock 2 0) ≠ 0) by (simpl; lra).
  split; [split; assumption |].
  apply (collide_leaves_rocks_touching (scenarioRock 1 0) (scenarioRock 2 0) Hov HM).
Defined.

(** X5.  The collision response (total mass not zero) reverses the relative
    velocity of the two rocks and scales it by 0.8, on each component, and it
    moves the two rocks by opposite amounts: the sum of their positions is
    unchanged. *)
Theorem collide_reverses_relative_velocity (rock other : Rock) :
  mass rock + mass other ≠ 0 →
  ∃ rock' other',
    collide rock other = Some (rock', other')
    ∧ vx rock' - vx other' = 0.8 * (vx other - vx rock)
    ∧ vy rock' - vy other' = 0.8 * (vy other - vy rock)
    ∧ x rock' + x other' = x rock + x other
    ∧ y rock' + y other' = y rock + y other.
Proof.
  intros HM.
  destruct (collide_Some rock other HM)
    as (rock' & other' & E & _ & _ & _ & _ & _ & _ & Evx & Evy & Evx' & Evy' & Hx & Hy).
  exists rock', other'. split; [exact E |].
  rewrite Evx, Evy, Evx', Evy'.
  split; [field; exact HM |]. split; [field; exact HM |]. split; lra.
Qed.

Lemma collide_reverses_relative_velocity_witness :
  mass (scenarioRock 1 0) + mass restingRock ≠ 0
  ∧ ∃ rock' other',
      collide (scenarioRock 1 0) restingRock = Some (rock', other')
      ∧ vx rock' - vx other' = 0.8 * (vx restingRock - vx (scenarioRock 1 0))
      ∧ vy rock' - vy other' = 0.8 * (vy restingRock - vy (scenarioRock 1 0))
      ∧ x rock' + x other' = x (scenarioRock 1 0) + x restingRock
      ∧ y rock' + y other' = y (scenarioRock 1 0) + y restingRock.
Proof.
  assert (HM : mass (scenarioRock 1 0) + mass restingRock ≠ 0) by (simpl; lra).
  split; [exact HM |].
  apply (collide_reverses_relative_velocity (scenarioRock 1 0) restingRock HM).
Defined.

(** X6.  Two rocks of the same mass (not zero) exchange their velocities in
    the collision response, each scaled by 0.8. *)
Theorem collide_equal_masses_swap (rock other : Rock) :
  mass rock = mass other → mass rock ≠ 0 →
  ∃ rock' other',
    collide rock other = Some (rock', other')
    ∧ vx rock' = vx other * 0.8 ∧ vy rock' = vy other * 0.8
    ∧ vx other' = vx rock * 0.8 ∧ vy other' = vy rock * 0.8.
Proof.
  intros Heq Hm.
  assert (HM : mass rock + mass other ≠ 0) by lra.
  destruct (collide_Some rock other HM)
    as (rock' & other' & E & _ & _ & _ & _ & _ & _ & Evx & Evy & Evx' & Evy' & _).
  exists rock', other'. split; [exact E |].
  rewrite Evx, Evy, Evx', Evy', <- Heq.
  repeat split; field; lra.
Qed.

Lemma collide_equal_masses_swap_witness :
  (mass (scenarioRock 1 0) = mass restingRock ∧ mass (scenarioRock 1 0) ≠ 0)
  ∧ ∃ rock' other',
      collide (scenarioRock 1 0) restingRock = Some (rock', other')
      ∧ vx rock' = vx restingRock * 0.8 ∧ vy rock' = vy restingRock * 0.8
      ∧ vx other' = vx (scenarioRock 1 0) * 0.8
      ∧ vy other' = vy (scenarioRock 1 0) * 0.8.
Proof.
  assert (Hm : mass (scenarioRock 1 0) ≠ 0) by (simpl; lra).
  split; [split; [reflexivity | exact Hm] |].
  apply (collide_equal_masses_swap (scenarioRock 1 0) restingRock eq_refl Hm).
Defined.


(** ** Further properties of the wall phase *)


Ltac rock_fields :=
  unfold bounceLeft, bounceRight, bounceTop, bounceBottom;
  cbn [id x y vx vy radius color rotation rotationSpeed mass type
       set_x set_y set_vx set_vy set_rotation set_rotationSpeed].

(** The two horizontal tests assign neither [y] nor [vy]. *)
Lemma horizontal_tests_keep (cv : Canvas) (rock : Rock) (r1 r2 : Rock) :
  r1 = (if Rlt_dec (x rock - radius rock) 0 then bounceLeft rock else rock) →
  r2 = (if Rgt_dec (x r1 + radius r1) (width cv) then bounceRight cv r1 else r1) →
  radius r2 = radius rock ∧ type r2 = type rock ∧ y r2 = y rock ∧ vy r2 = vy rock.
Proof.
  intros -> ->.
  destruct (Rlt_dec (x rock - radius rock) 0);
    match goal with |- context [Rgt_dec ?a ?b] => destruct (Rgt_dec a b) end;
    rock_fields; repeat split.
Qed.

Lemma wall_phase_horizontal (cv : Canvas) (rock : Rock) :
  2 * radius rock <= width cv →
  (hitsLeft rock → x (bounceWalls cv rock) = radius rock)
  ∧ (hitsRight cv rock → x (bounceWalls cv rock) = width cv - radius rock)
  ∧ (¬ hitsLeft rock → ¬ hitsRight cv rock → x (bounceWalls cv rock) = x rock).
Proof.
  intros HW. unfold hitsLeft, hitsRight, bounceWalls.
  set (r1 := if Rlt_dec (x rock - radius rock) 0 then bounceLeft rock else rock).
  assert (H1 : radius r1 = radius rock
               ∧ (x rock - radius rock < 0 → x r1 = radius rock)
               ∧ (¬ x rock - radius rock < 0 → x r1 = x rock)).
  { subst r1. destruct (Rlt_dec _ _); rock_fields; repeat split; intros;
      try reflexivity; lra. }
  clearbody r1. destruct H1 as (Hr1 & Hxa & Hxb).
  set (r2 := if Rgt_dec (x r1 + radius r1) (width cv) then bounceRight cv r1 else r1).
  assert (H2 : (x rock - radius rock < 0 → x r2 = radius rock)
               ∧ (x rock + radius rock > width cv → x r2 = width cv - radius rock)
               ∧ (¬ x rock - radius rock < 0 → ¬ x rock + radius rock > width cv →
                  x r2 = x rock)).
  { subst r2. destruct (Rlt_dec (x rock - radius rock) 0) as [HL | HL].
    - specialize (Hxa HL). destruct (Rgt_dec _ _); rock_fields;
        repeat split; intros; lra.
    - specialize (Hxb HL). destruct (Rgt_dec _ _); rock_fields;
        repeat split; intros; lra. }
  clearbody r2. clear Hxa Hxb.
  set (r3 := if Rlt_dec (y r2 - radius r2) 0 then bounceTop r2 else r2).
  assert (H3 : x r3 = x r2) by (subst r3; destruct (Rlt_dec _ _); reflexivity).
  clearbody r3.
  assert (H4 : x (if Rgt_dec (y r3 + radius r3) (height cv)
                  then bounceBottom cv r3 else r3) = x r2)
    by (destruct (Rgt_dec _ _); rock_fields; exact H3).
  rewrite H4. exact H2.
Qed.

Lemma wall_phase_vertical (cv : Canvas) (rock : Rock) :
  2 * radius rock <= height cv →
  (hitsTop rock →
     y (bounceWalls cv rock) = radius rock
     ∧ vy (bounceWalls cv rock) = - vy rock * bounce (ROCK_TYPES (type rock)))
  ∧ (hitsBottom cv rock →
       y (bounceWalls cv rock) = height cv - radius rock
       ∧ vy (bounceWalls cv rock) = - vy rock * bounce (ROCK_TYPES (type rock)))
  ∧ (¬ hitsTop rock → ¬ hitsBottom cv rock →
       y (bounceWalls cv rock) = y rock ∧ vy (bounceWalls cv rock) = vy rock).
Proof.
  intros HH. unfold hitsTop, hitsBottom, bounceWalls.
  set (r1 := if Rlt_dec (x rock - radius rock) 0 then bounceLeft rock else rock).
  set (r2 := if Rgt_dec (x r1 + radius r1) (width cv) then bounceRight cv r1 else r1).
  destruct (horizontal_tests_keep cv rock r1 r2 eq_refl eq_refl)
    as (Hr2 & Ht2 & Hy2 & Hvy2).
  clearbody r2. clear r1.
  destruct (Rlt_dec (y r2 - radius r2) 0) as [HT | HT];
    match goal with |- context [Rgt_dec ?a ?b] => destruct (Rgt_dec a b) as [HB | HB] end;
    revert HB; rock_fields; intros HB; rewrite ?Ht2, ?Hvy2;
    repeat split; intros; try reflexivity; try lra.
Qed.

(** X7.  On a canvas at least as wide and as high as the rock, the four wall
    tests are decided by the rock as it enters the wall phase, and at most
    one fires per axis: a rock past the left (right) edge ends at [radius]
    ([width - radius]); a rock past the top (bottom) edge ends at [radius]
    ([height - radius]) with [vy] reversed and scaled by the bounce of its
    material; otherwise the coordinate, and [vy], are unchanged. *)
Theorem wall_phase_by_cases (cv : Canvas) (rock : Rock) :
  2 * radius rock <= width cv → 2 * radius rock <= height cv →
  (hitsLeft rock → x (bounceWalls cv rock) = radius rock)
  ∧ (hitsRight cv rock → x (bounceWalls cv rock) = width cv - radius rock)
  ∧ (¬ hitsLeft rock → ¬ hitsRight cv rock → x (bounceWalls cv rock) = x rock)
  ∧ (hitsTop rock →
       y (bounceWalls cv rock) = radius rock
       ∧ vy (bounceWalls cv rock) = - vy rock * bounce (ROCK_TYPES (type rock)))
  ∧ (hitsBottom cv rock →
       y (bounceWalls cv rock) = height cv - radius rock
       ∧ vy (bounceWalls cv rock) = - vy rock * bounce (ROCK_TYPES (type rock)))
  ∧ (¬ hitsTop rock → ¬ hitsBottom cv rock →
       y (bounceWalls cv rock) = y rock ∧ vy (bounceWalls cv rock) = vy rock).
Proof.
  intros HW HH.
  destruct (wall_phase_horizontal cv rock HW) as (H1 & H2 & H3).
  destruct (wall_phase_vertical cv rock HH) as (H4 & H5 & H6).
  repeat split; auto; intros; try (apply H4; assumption); try (apply H5; assumption);
    apply H6; assumption.
Qed.

Lemma wall_phase_by_cases_witness :
  (2 * radius restingRock <= width scenarioCanvas
   ∧ 2 * radius restingRock <= height scenarioCanvas)
  ∧ (hitsLeft restingRock → x (bounceWalls scenarioCanvas restingRock) = radius restingRock)
  ∧ (hitsRight scenarioCanvas restingRock →
       x (bounceWalls scenarioCanvas restingRock)
       = width scenarioCanvas - radius restingRock)
  ∧ (¬ hitsLeft restingRock → ¬ hitsRight scenarioCanvas restingRock →
       x (bounceWalls scenarioCanvas restingRock) = x restingRock)
  ∧ (hitsTop restingRock →
       y (bounceWalls scenarioCanvas restingRock) = radius restingRock
       ∧ vy (bounceWalls scenarioCanvas restingRock)
         = - vy restingRock * bounce (ROCK_TYPES (type restingRock)))
  ∧ (hitsBottom scenarioCanvas restingRock →
       y (bounceWalls scenarioCanvas restingRock)
       = height scenarioCanvas - radius restingRock
       ∧ vy (bounceWalls scenarioCanvas restingRock)
         = - vy restingRock * bounce (ROCK_TYPES (type restingRock)))
  ∧ (¬ hitsTop restingRock → ¬ hitsBottom scenarioCanvas restingRock →
       y (bounceWalls scenarioCanvas restingRock) = y restingRock
       ∧ vy (bounceWalls scenarioCanvas restingRock) = vy restingRock).
Proof.
  assert (HW : 2 * radius restingRock <= width scenarioCanvas) by (simpl; lra).
  assert (HH : 2 * radius restingRock <= height scenarioCanvas) by (simpl; lra).
  split; [split; assumption |].
  apply (wall_phase_by_cases scenarioCanvas restingRock HW HH).
Defined.

Lemma Rabs_scale (v k : R) : -1 <= k <= 1 → Rabs (v * k) <= Rabs v.
Proof.
  intros Hk. rewrite Rabs_mult.
  assert (Hk' : Rabs k <= 1) by (apply Rabs_le; exact Hk).
  pose proof (Rabs_pos v). nra.
Qed.

Lemma Rabs_bounce (v : R) (t : RockType) :
  Rabs (- v * bounce (ROCK_TYPES t)) <= Rabs v.
Proof.
  rewrite <- (Rabs_Ropp v). apply Rabs_scale.
  pose proof (bounce_range t). lra.
Qed.

Lemma notFaster_refl (r : Rock) : notFaster r r.
Proof. unfold notFaster. lra. Qed.

Lemma notFaster_trans (r3 r2 r1 : Rock) :
  notFaster r3 r2 → notFaster r2 r1 → notFaster r3 r1.
Proof. unfold notFaster. intros (? & ? & ?) (? & ? & ?). repeat split; lra. Qed.

Lemma guarded_notFaster {A B : Prop} (test : {A} + {B}) (f : Rock → Rock) (r r0 : Rock) :
  (∀ q, notFaster (f q) q) → notFaster r r0 →
  notFaster (if test then f r else r) r0.
Proof.
  intros Hf H. destruct test; [| exact H].
  apply (notFaster_trans _ r); [apply Hf | exact H].
Qed.

Lemma bounceLeft_notFaster (q : Rock) : notFaster (bounceLeft q) q.
Proof.
  unfold notFaster. rock_fields. split; [apply Rabs_bounce |]. split; [lra |].
  apply Rabs_scale. lra.
Qed.

Lemma bounceRight_notFaster (cv : Canvas) (q : Rock) : notFaster (bounceRight cv q) q.
Proof.
  unfold notFaster. rock_fields. split; [apply Rabs_bounce |]. split; [lra |].
  apply Rabs_scale. lra.
Qed.

Lemma bounceTop_notFaster (q : Rock) : notFaster (bounceTop q) q.
Proof. unfold notFaster. rock_fields. split; [lra |]. split; [apply Rabs_bounce | lra]. Qed.

Lemma bounceBottom_notFaster (cv : Canvas) (q : Rock) : notFaster (bounceBottom cv q) q.
Proof.
  unfold notFaster. rock_fields. unfold friction. split; [apply Rabs_scale; lra |].
  split; [apply Rabs_bounce | apply Rabs_scale; lra].
Qed.

Lemma bounceWalls_notFaster (cv : Canvas) (rock : Rock) :
  notFaster (bounceWalls cv rock) rock.
Proof.
  unfold bounceWalls.
  apply (guarded_notFaster _ (bounceBottom cv)); [apply bounceBottom_notFaster |].
  apply (guarded_notFaster _ bounceTop); [apply bounceTop_notFaster |].
  apply (guarded_notFaster _ (bounceRight cv)); [apply bounceRight_notFaster |].
  apply (guarded_notFaster _ bounceLeft); [apply bounceLeft_notFaster |].
  apply notFaster_refl.
Qed.

(** X8.  Whatever the canvas and the rock, the wall phase makes none of
    [vx], [vy] and [rotationSpeed] larger in absolute value. *)
Theorem wall_phase_never_speeds_up (cv : Canvas) (rock : Rock) :
  Rabs (vx (bounceWalls cv rock)) <= Rabs (vx rock)
  ∧ Rabs (vy (bounceWalls cv rock)) <= Rabs (vy rock)
  ∧ Rabs (rotationSpeed (bounceWalls cv rock)) <= Rabs (rotationSpeed rock).
Proof. exact (bounceWalls_notFaster cv rock). Qed.

(** X9.  A rock alone on a canvas at least as high as the rock, lying on the
    floor ([y = height - radius]) with [vy] between -0.5 and 0, is in the
    same situation after one step: it stays on the floor. *)
Theorem resting_rock_stays_on_floor (cv : Canvas) (rock : Rock) :
  2 * radius rock <= height cv →
  y rock = height cv - radius rock →
  -0.5 <= vy rock <= 0 →
  ∃ rock',
    updatePhysics (Some cv) [rock] = Some ([rock'], [])
    ∧ radius rock' = radius rock
    ∧ y rock' = height cv - radius rock'
    ∧ -0.5 <= vy rock' <= 0.
Proof.
  intros HH Hy Hvy. exists (bounceWalls cv (integrate rock)).
  split; [apply updatePhysics_singleton |].
  set (r1 := integrate rock).
  assert (Hr1 : radius r1 = radius rock) by reflexivity.
  assert (Ht1 : type r1 = type rock) by reflexivity.
  assert (Hvy1 : vy r1 = (vy rock + 0.5) * 0.999) by reflexivity.
  assert (Hy1 : y r1 = y rock + (vy rock + 0.5) * 0.999) by reflexivity.
  pose proof (bounceWalls_static cv r1) as Hst. apply static_eq in Hst as (_ & Hr & _).
  rewrite Hr, Hr1. split; [reflexivity |].
  clearbody r1.
  destruct (wall_phase_vertical cv r1) as (_ & Hbottom & Hfree); [lra |].
  unfold hitsTop, hitsBottom in *.
  pose proof (bounce_range (type rock)) as Hb.
  destruct (Rgt_dec (y r1 + radius r1) (height cv)) as [HB | HB].
  - destruct (Hbottom HB) as [Ey Evy]. rewrite Ey, Evy, Hr1, Hvy1, Ht1.
    split; [reflexivity |]. nra.
  - destruct Hfree as [Ey Evy]; [lra | exact HB |].
    rewrite Ey, Evy, Hvy1, Hy1. split; nra.
Qed.

Lemma resting_rock_stays_on_floor_witness :
  (2 * radius restingRock <= height scenarioCanvas
   ∧ y restingRock = height scenarioCanvas - radius restingRock
   ∧ -0.5 <= vy restingRock <= 0)
  ∧ ∃ rock',
      updatePhysics (Some scenarioCanvas) [restingRock] = Some ([rock'], [])
      ∧ radius rock' = radius restingRock
      ∧ y rock' = height scenarioCanvas - radius rock'
      ∧ -0.5 <= vy rock' <= 0.
Proof.
  assert (HH : 2 * radius restingRock <= height scenarioCanvas) by (simpl; lra).
  assert (Hy : y restingRock = height scenarioCanvas - radius restingRock)
    by (simpl; lra).
  assert (Hvy : -0.5 <= vy restingRock <= 0) by (simpl; lra).
  split; [repeat split; assumption || apply Hvy |].
  apply (resting_rock_stays_on_floor scenarioCanvas restingRock HH Hy Hvy).
Defined.

(** X10.  Gravity, air resistance and the wall phase together never make
    [vx] or [rotationSpeed] larger in absolute value, and they keep [vy]
    within the terminal velocity 499.5 = 0.5 * 0.999 / (1 - 0.999) once it is
    within it. *)
Theorem advance_speed_bounds (cv : Canvas) (rock : Rock) :
  Rabs (vx (bounceWalls cv (integrate rock))) <= Rabs (vx rock)
  ∧ Rabs (rotationSpeed (bounceWalls cv (integrate rock))) <= Rabs (rotationSpeed rock)
  ∧ (Rabs (vy rock) <= 499.5 → Rabs (vy (bounceWalls cv (integrate rock))) <= 499.5).
Proof.
  destruct (bounceWalls_notFaster cv (integrate rock)) as (Hvx & Hvy & Hrs).
  rewrite integrate_fields in Hvx, Hvy, Hrs.
  cbn [vx vy rotationSpeed] in Hvx, Hvy, Hrs. unfold gravity, airResistance in *.
  split; [| split].
  - etrans; [exact Hvx |]. apply Rabs_scale. lra.
  - exact Hrs.
  - intros Hterm. etrans; [exact Hvy |].
    pose proof (Rle_abs (vy rock)) as Hup. pose proof (Rle_abs (- vy rock)) as Hlo.
    rewrite Rabs_Ropp in Hlo. apply Rabs_le. lra.
Qed.


(** ** Further properties of the step *)


(** X1.  One physics step over rocks of positive mass succeeds, keeps the
    number of rocks, and at every index keeps the id, the radius, the colour,
    the mass and the material of the rock. *)
Theorem updatePhysics_keeps_static_fields (cv : Canvas) (rs : list Rock) :
  Forall positive_mass rs →
  ∃ rs' log,
    updatePhysics (Some cv) rs = Some (rs', log)
    ∧ length rs' = length rs
    ∧ (∀ k rock', rs' !! k = Some rock' →
         ∃ rock, rs !! k = Some rock
                 ∧ id rock' = id rock ∧ radius rock' = radius rock
                 ∧ color rock' = color rock ∧ mass rock' = mass rock
                 ∧ type rock' = type rock).
Proof.
  intros Hpos.
  destruct (updatePhysics_spec cv rs Hpos) as (rs' & log & E & Hl & Hs & _).
  exists rs', log. split; [exact E |]. split; [exact Hl |].
  intros k rock' Hk.
  assert (Hk' : (static <$> rs) !! k = Some (static rock'))
    by (rewrite <- Hs, list_lookup_fmap, Hk; reflexivity).
  rewrite list_lookup_fmap in Hk'.
  destruct (rs !! k) as [rock |]; [| discriminate].
  exists rock. split; [reflexivity |].
  apply static_eq. simpl in Hk'. congruence.
Qed.

Lemma updatePhysics_keeps_static_fields_witness :
  Forall positive_mass [scenarioRock 1 0; restingRock]
  ∧ ∃ rs' log,
      updatePhysics (Some scenarioCanvas) [scenarioRock 1 0; restingRock] = Some (rs', log)
      ∧ length rs' = 2%nat
      ∧ (∀ k rock', rs' !! k = Some rock' →
           ∃ rock, [scenarioRock 1 0; restingRock] !! k = Some rock
                   ∧ id rock' = id rock ∧ radius rock' = radius rock
                   ∧ color rock' = color rock ∧ mass rock' = mass rock
                   ∧ type rock' = type rock).
Proof.
  assert (Hpos : Forall positive_mass [scenarioRock 1 0; restingRock])
    by (repeat constructor; unfold positive_mass; simpl; lra).
  split; [exact Hpos |].
  apply (updatePhysics_keeps_static_fields scenarioCanvas _ Hpos).
Defined.

(** X2.  After one physics step over rocks of positive mass, the last rock
    of the array, whose inner loop is empty, is inside the canvas whenever the
    canvas is at least twice its radius in both dimensions. *)
Theorem last_rock_ends_in_bounds (cv : Canvas) (rs : list Rock) :
  Forall positive_mass rs →
  ∃ rs' log,
    updatePhysics (Some cv) rs = Some (rs', log)
    ∧ (∀ rock, last rs' = Some rock →
         2 * radius rock <= width cv → 2 * radius rock <= height cv →
         inBounds cv rock).
Proof.
  intros Hpos.
  destruct (updatePhysics_spec cv rs Hpos) as (rs' & log & E & Hl & _ & Hp & Hb).
  exists rs', log. split; [exact E |].
  intros rock Hlast HW HH. rewrite last_lookup in Hlast.
  apply (Hb _ rock Hlast); [| exact HW | exact HH].
  intros e He Hi.
  apply (list_elem_of_fmap_2 pc_pair) in He. rewrite Hp in He.
  apply pairsUpto_row in He. unfold pc_pair in He. simpl in He. lia.
Qed.

Lemma last_rock_ends_in_bounds_witness :
  Forall positive_mass [scenarioRock 1 0; restingRock]
  ∧ ∃ rs' log,
      updatePhysics (Some scenarioCanvas) [scenarioRock 1 0; restingRock] = Some (rs', log)
      ∧ (∀ rock, last rs' = Some rock →
           2 * radius rock <= width scenarioCanvas →
           2 * radius rock <= height scenarioCanvas →
           inBounds scenarioCanvas rock).
Proof.
  assert (Hpos : Forall positive_mass [scenarioRock 1 0; restingRock])
    by (repeat constructor; unfold positive_mass; simpl; lra).
  split; [exact Hpos |].
  apply (last_rock_ends_in_bounds scenarioCanvas _ Hpos).
Defined.

Lemma processRock_quiet (cv : Canvas) (index : nat) (rs : list Rock) (log : list PairCheck) :
  (index < length rs)%nat →
  Forall positive_mass rs →
  ∃ rock rs' hits,
    rs !! index = Some rock
    ∧ processRock cv index (rs, log) = Some (rs', log ++ rowChecks index (index + 1) hits)
    ∧ length rs' = length rs
    ∧ static <$> rs' = static <$> rs
    ∧ (Forall (λ h, h = false) hits →
       rs' = <[index := bounceWalls cv (integrate rock)]> rs).
Proof.
  intros Hindex Hpos.
  destruct (lookup_lt_is_Some_2 rs index Hindex) as [rock Hrock].
  set (rock1 := bounceWalls cv (integrate rock)).
  assert (Hs1 : static <$> <[index := rock1]> rs = static <$> rs).
  { apply (insert_static _ _ rock); [exact Hrock |].
    subst rock1. rewrite bounceWalls_static. apply integrate_static. }
  destruct (pairLoop_spec index (<[index := rock1]> rs) log)
    as (rs' & hits & E & Hlen & Hl & Hs & Hk & Hid).
  { rewrite length_insert. exact Hindex. }
  { apply (positive_mass_static rs); assumption. }
  rewrite length_insert in Hl, E.
  exists rock, rs', hits.
  split; [exact Hrock |]. split.
  { rewrite (processRock_unfold cv index _ rock) by exact Hrock. exact E. }
  split; [exact Hl |]. split; [congruence |]. exact Hid.
Qed.

Lemma rowChecks_quiet (index j0 : nat) (hits : list bool) :
  Forall (λ e, pc_hit e = false) (rowChecks index j0 hits) →
  Forall (λ h, h = false) hits.
Proof.
  intros H. apply (rowChecks_no_hit index j0). rewrite Forall_forall in H. exact H.
Qed.

Lemma advance_prefix {A : Type} (f : A → A) (l : list A) (i : nat) (a : A) :
  l !! i = Some a →
  <[i := f a]> ((f <$> take i l) ++ drop i l) = (f <$> take (S i) l) ++ drop (S i) l.
Proof.
  intros Hi.
  assert (Hlen : length (f <$> take i l) = i).
  { rewrite length_fmap, length_take. apply lookup_lt_Some in Hi. lia. }
  rewrite insert_app_r_alt by lia. rewrite Hlen, Nat.sub_diag.
  rewrite (drop_S l a i Hi). simpl.
  rewrite (take_S_r l i a Hi), fmap_app, <- app_assoc. reflexivity.
Qed.

(** X3.  In a physics step (over rocks of positive mass) in which no
    pairwise check finds a collision, every rock is advanced on its own: the
    result is the array of the rocks after gravity, air resistance, the
    position update and the wall phase. *)
Theorem quiet_step_advances_each_rock_alone (cv : Canvas) (rs : list Rock) :
  Forall positive_mass rs →
  ∃ rs' log,
    updatePhysics (Some cv) rs = Some (rs', log)
    ∧ (Forall (λ e, pc_hit e = false) log →
       rs' = (λ rock, bounceWalls cv (integrate rock)) <$> rs).
Proof.
  intros Hpos.
  set (f := λ rock, bounceWalls cv (integrate rock)).
  pose (Q := λ (index : nat) (w : World),
    length w.1 = length rs
    ∧ static <$> w.1 = static <$> rs
    ∧ (Forall (λ e, pc_hit e = false) w.2 →
       w.1 = (f <$> take index rs) ++ drop index rs)).
  destruct (for_range_inv (processRock cv) Q (length rs) 0 (rs, []))
    as ([rs' log] & E & Hl & Hs & Hq).
  - split; [reflexivity |]. split; [reflexivity |]. intros _. reflexivity.
  - intros index [rs1 log1] Hindex (Hl & Hs & Hq). simpl in *.
    destruct (processRock_quiet cv index rs1 log1)
      as (rock0 & rs2 & hits & Hrock0 & E & Hl2 & Hs2 & Hquiet).
    { lia. }
    { apply (positive_mass_static rs); assumption. }
    eexists. split; [exact E |]. unfold Q. simpl.
    split; [congruence |]. split; [congruence |].
    intros Hall. apply Forall_app in Hall as [Hall1 Hall2].
    specialize (Hq Hall1). apply rowChecks_quiet in Hall2.
    rewrite (Hquiet Hall2). subst rs1.
    assert (Hrock : rs !! index = Some rock0).
    { rewrite lookup_app_r in Hrock0 by (rewrite length_fmap, length_take; lia).
      rewrite length_fmap, length_take in Hrock0.
      replace (index - index `min` length rs)%nat with 0%nat in Hrock0 by lia.
      rewrite lookup_drop, Nat.add_0_r in Hrock0. exact Hrock0. }
    apply (advance_prefix f rs index rock0 Hrock).
  - simpl in *. exists rs', log. unfold updatePhysics. rewrite E.
    split; [reflexivity |]. intros Hall. rewrite (Hq Hall).
    rewrite firstn_all, drop_all, app_nil_r. reflexivity.
Qed.

Lemma quiet_step_advances_each_rock_alone_witness :
  Forall positive_mass [scenarioRock 1 0; restingRock]
  ∧ ∃ rs' log,
      updatePhysics (Some scenarioCanvas) [scenarioRock 1 0; restingRock] = Some (rs', log)
      ∧ (Forall (λ e, pc_hit e = false) log →
         rs' = (λ rock, bounceWalls scenarioCanvas (integrate rock))
               <$> [scenarioRock 1 0; restingRock]).
Proof.
  assert (Hpos : Forall positive_mass [scenarioRock 1 0; restingRock])
    by (repeat constructor; unfold positive_mass; simpl; lra).
  split; [exact Hpos |].
  apply (quiet_step_advances_each_rock_alone scenarioCanvas _ Hpos).
Defined.


(** ** The component as a whole *)









Lemma moves_keep_press (moves : list Event) (a : App) :
  Forall is_move moves →
  ∃ a', run moves a = Some a'
        ∧ sim a' = sim a ∧ isDown (mouse a') = isDown (mouse a)
        ∧ startX (mouse a') = startX (mouse a) ∧ startY (mouse a') = startY (mouse a).
Proof.
  intros Hm. revert a. induction Hm as [| e rest He _ IH]; intros a; simpl.
  - exists a. repeat split.
  - destruct e; try contradiction. simpl.
    destruct (IH (mkApp (sim a) (handleMouseMove canvas rect clientX clientY (mouse a))))
      as (a' & E & Hs & Hd & Hx & Hy).
    exists a'. split; [exact E |]. simpl in *.
    unfold handleMouseMove in *. destruct canvas; simpl in *; repeat split; assumption.
Qed.

Lemma handleMouseUp_idle (now : Z) (u1 u2 u3 u4 : R) (a : App) :
  isDown (mouse a) = false → handleMouseUp now u1 u2 u3 u4 a = Some a.
Proof. intros E. unfold handleMouseUp. rewrite E. reflexivity. Qed.

Lemma handleMouseUp_release (now : Z) (u1 u2 u3 u4 : R) (a : App) :
  isDown (mouse a) = true →
  handleMouseUp now u1 u2 u3 u4 a =
  (s' ← createRock now u1 u2 u3 u4 (startX (mouse a)) (startY (mouse a))
                   ((mouse_x (mouse a) - startX (mouse a)) * 0.1)
                   ((mouse_y (mouse a) - startY (mouse a)) * 0.1) (sim a);
   Some (mkApp s' (mkMouse (mouse_x (mouse a)) (mouse_y (mouse a)) false
                           (startX (mouse a)) (startY (mouse a))))).
Proof. intros E. unfold handleMouseUp. rewrite E. reflexivity. Qed.

(** X12.  A press on the canvas, any number of moves, a release and a second
    release (the pointer leaving the canvas) add exactly one rock: it is at
    the point of the press, and its velocity is 0.1 times the vector from the
    press to the last pointer position, without any cap.  The moves change
    nothing of the simulation. *)
Theorem drag_spawns_one_rock (cv : Canvas) (rect : Rect) (cx cy : R)
    (moves : list Event) (now now' : Z) (u1 u2 u3 u4 u1' u2' u3' u4' : R) (a : App) :
  Forall is_move moves →
  unit_interval u1 →
  ∃ a1 a2 rock,
    run (EvMouseDown (Some cv) rect cx cy :: moves) a = Some a1
    ∧ sim a1 = sim a
    ∧ run [EvMouseUp now u1 u2 u3 u4; EvMouseUp now' u1' u2' u3' u4'] a1 = Some a2
    ∧ rocks (sim a2) = rocks (sim a) ++ [rock]
    ∧ x rock = cx - rect_left rect ∧ y rock = cy - rect_top rect
    ∧ vx rock = (mouse_x (mouse a1) - x rock) * 0.1
    ∧ vy rock = (mouse_y (mouse a1) - y rock) * 0.1
    ∧ isDown (mouse a2) = false.
Proof.
  intros Hm Hu.
  destruct (moves_keep_press moves
              (mkApp (sim a) (handleMouseDown (Some cv) rect cx cy (mouse a))) Hm)
    as (a1 & E1 & Hs & Hd & Hx & Hy). simpl in Hs, Hd, Hx, Hy.
  destruct (createRock_Some now u1 u2 u3 u4 (startX (mouse a1)) (startY (mouse a1))
              ((mouse_x (mouse a1) - startX (mouse a1)) * 0.1)
              ((mouse_y (mouse a1) - startY (mouse a1)) * 0.1) (sim a1) Hu)
    as (t & _ & E2).
  eexists a1, _, _. split; [exact E1 |]. split; [exact Hs |].
  split.
  { cbn [run handle]. rewrite handleMouseUp_release by exact Hd. rewrite E2.
    cbn [mbind option_bind]. rewrite handleMouseUp_idle by reflexivity. reflexivity. }
  simpl. rewrite Hs, Hx, Hy. repeat split.
Qed.

Lemma drag_spawns_one_rock_witness :
  (Forall is_move [EvMouseMove (Some scenarioCanvas) (mkRect 10 10) 150 30]
   ∧ unit_interval 0.5)
  ∧ ∃ a1 a2 rock,
      run (EvMouseDown (Some scenarioCanvas) (mkRect 10 10) 50 60
           :: [EvMouseMove (Some scenarioCanvas) (mkRect 10 10) 150 30]) initialApp
        = Some a1
      ∧ sim a1 = sim initialApp
      ∧ run [EvMouseUp 1000 0.5 0.5 0.5 0.5; EvMouseUp 1001 0.5 0.5 0.5 0.5] a1 = Some a2
      ∧ rocks (sim a2) = rocks (sim initialApp) ++ [rock]
      ∧ x rock = 50 - rect_left (mkRect 10 10) ∧ y rock = 60 - rect_top (mkRect 10 10)
      ∧ vx rock = (mouse_x (mouse a1) - x rock) * 0.1
      ∧ vy rock = (mouse_y (mouse a1) - y rock) * 0.1
      ∧ isDown (mouse a2) = false.
Proof.
  assert (Hm : Forall is_move [EvMouseMove (Some scenarioCanvas) (mkRect 10 10) 150 30])
    by (repeat constructor).
  assert (Hu : unit_interval 0.5) by (unfold unit_interval; lra).
  split; [split; assumption |].
  apply (drag_spawns_one_rock scenarioCanvas (mkRect 10 10) 50 60 _ 1000 1001
           0.5 0.5 0.5 0.5 0.5 0.5 0.5 0.5 initialApp Hm Hu).
Defined.

(** X13.  On a canvas of positive width, with draws in [0, 1),
    [spawnRandomRock] appends one rock with [x] in [0, width), [y = -50],
    [vx] in [-5, 5) and [vy] in [0, 5); the rock is entirely above the
    canvas ([y + radius < 0]). *)
Theorem spawnRandomRock_enters_from_above (cv : Canvas) (now : Z)
    (u_x u_vx u_vy u1 u2 u3 u4 : R) (s : Sim) :
  0 < width cv →
  unit_interval u_x → unit_interval u_vx → unit_interval u_vy →
  unit_interval u1 → unit_interval u2 →
  ∃ rock,
    spawnRandomRock (Some cv) now u_x u_vx u_vy u1 u2 u3 u4 s
      = Some (mkSim (rocks s ++ [rock]) (isPlaying s) (S (length (rocks s))))
    ∧ 0 <= x rock < width cv
    ∧ y rock = -50
    ∧ -5 <= vx rock < 5
    ∧ 0 <= vy rock < 5
    ∧ y rock + radius rock < 0.
Proof.
  unfold unit_interval. intros HW Hx Hvx Hvy H1 H2. unfold spawnRandomRock.
  destruct (createRock_Some now u1 u2 u3 u4 (u_x * width cv) (-50) ((u_vx - 0.5) * 10)
              (u_vy * 5) s H1) as (t & _ & E).
  eexists. split; [exact E |]. simpl. repeat split; try lra; nra.
Qed.

Lemma spawnRandomRock_enters_from_above_witness :
  (0 < width scenarioCanvas
   ∧ unit_interval 0.5 ∧ unit_interval 0.25 ∧ unit_interval 0.75
   ∧ unit_interval 0 ∧ unit_interval 0.2)
  ∧ ∃ rock,
      spawnRandomRock (Some scenarioCanvas) 1000 0.5 0.25 0.75 0 0.2 0.5 0.5 initial
        = Some (mkSim (rocks initial ++ [rock]) (isPlaying initial)
                      (S (length (rocks initial))))
      ∧ 0 <= x rock < width scenarioCanvas
      ∧ y rock = -50
      ∧ -5 <= vx rock < 5
      ∧ 0 <= vy rock < 5
      ∧ y rock + radius rock < 0.
Proof.
  assert (HW : 0 < width scenarioCanvas) by (simpl; lra).
  assert (H1 : unit_interval 0.5) by (unfold unit_interval; lra).
  assert (H2 : unit_interval 0.25) by (unfold unit_interval; lra).
  assert (H3 : unit_interval 0.75) by (unfold unit_interval; lra).
  assert (H4 : unit_interval 0) by (unfold unit_interval; lra).
  assert (H5 : unit_interval 0.2) by (unfold unit_interval; lra).
  split; [repeat split; assumption || apply H1 || apply H2 || apply H3 || apply H4
                        || apply H5 |].
  apply (spawnRandomRock_enters_from_above scenarioCanvas 1000 0.5 0.25 0.75 0 0.2 0.5 0.5
           initial HW H1 H2 H3 H4 H5).
Defined.

(** X14.  A rock dropped by [spawnRandomRock] into an empty collection, on a
    canvas at least 80 high, is put on the top edge by its first physics
    step: [y = radius], and its [vy] is negative (the downward velocity is
    reflected by the top test). *)
Theorem dropped_rock_snaps_to_top_edge (cv : Canvas) (now : Z)
    (u_x u_vx u_vy u1 u2 u3 u4 : R) (s : Sim) :
  80 <= height cv →
  rocks s = [] →
  unit_interval u_vy → unit_interval u1 → unit_interval u2 →
  ∃ s1 rock',
    spawnRandomRock (Some cv) now u_x u_vx u_vy u1 u2 u3 u4 s = Some s1
    ∧ updatePhysics (Some cv) (rocks s1) = Some ([rock'], [])
    ∧ y rock' = radius rock'
    ∧ vy rock' < 0.
Proof.
  unfold unit_interval. intros HH Hs Hvy H1 H2. unfold spawnRandomRock.
  destruct (createRock_Some now u1 u2 u3 u4 (u_x * width cv) (-50) ((u_vx - 0.5) * 10)
              (u_vy * 5) s H1) as (t & _ & E).
  rewrite E, Hs. simpl app. cbn [rocks].
  eexists _, _. split; [reflexivity |].
  split; [apply updatePhysics_singleton |].
  match goal with |- context [integrate ?r] => set (rock := r) end.
  set (r1 := integrate rock).
  assert (Hr1 : radius r1 = 15 + u2 * 25) by reflexivity.
  assert (Ht1 : type r1 = t) by reflexivity.
  assert (Hvy1 : vy r1 = (u_vy * 5 + 0.5) * 0.999) by reflexivity.
  assert (Hy1 : y r1 = -50 + (u_vy * 5 + 0.5) * 0.999) by reflexivity.
  pose proof (bounceWalls_static cv r1) as Hst. apply static_eq in Hst as (_ & Hr & _).
  clearbody r1.
  destruct (wall_phase_vertical cv r1) as (Htop & _ & _); [lra |].
  destruct Htop as [Ey Evy]; [unfold hitsTop; lra |].
  rewrite Ey, Evy, Hr, Hvy1, Ht1. split; [reflexivity |].
  pose proof (bounce_range t) as Hb.
  assert (Hbpos : 0 < bounce (ROCK_TYPES t)) by (destruct t; simpl; lra).
  nra.
Qed.

Lemma dropped_rock_snaps_to_top_edge_witness :
  (80 <= height scenarioCanvas ∧ rocks initial = []
   ∧ unit_interval 0.75 ∧ unit_interval 0 ∧ unit_interval 0.2)
  ∧ ∃ s1 rock',
      spawnRandomRock (Some scenarioCanvas) 1000 0.5 0.25 0.75 0 0.2 0.5 0.5 initial
        = Some s1
      ∧ updatePhysics (Some scenarioCanvas) (rocks s1) = Some ([rock'], [])
      ∧ y rock' = radius rock'
      ∧ vy rock' < 0.
Proof.
  assert (HH : 80 <= height scenarioCanvas) by (simpl; lra).
  assert (H3 : unit_interval 0.75) by (unfold unit_interval; lra).
  assert (H4 : unit_interval 0) by (unfold unit_interval; lra).
  assert (H5 : unit_interval 0.2) by (unfold unit_interval; lra).
  split; [repeat split; assumption || apply H3 || apply H4 || apply H5 |].
  apply (dropped_rock_snaps_to_top_edge scenarioCanvas 1000 0.5 0.25 0.75 0 0.2 0.5 0.5
           initial HH eq_refl H3 H4 H5).
Defined.

Lemma outlineOp_vertex (points : nat) (rock : Rock) (i : nat) :
  0 <= radius rock →
  ∃ p, vertex (outlineOp points rock i) = Some p ∧ inRing rock p.
Proof.
  intros Hr. unfold outlineOp.
  set (c := cos (INR i / INR points * PI * 2)).
  set (s := sin (INR i / INR points * PI * 2)).
  set (t := sin (INR i * 2.5 + id rock)).
  assert (Hunit : s * s + c * c = 1) by (apply (sin2_cos2 _)).
  assert (Ht : -1 <= t <= 1) by (apply SIN_bound).
  set (rv := radius rock * (0.8 + t * 0.2)).
  assert (Hrv : 0.6 * radius rock <= rv <= radius rock) by (unfold rv; nra).
  assert (Hnorm : c * rv * (c * rv) + s * rv * (s * rv) = rv * rv).
  { replace (c * rv * (c * rv) + s * rv * (s * rv)) with (rv * rv * (s * s + c * c))
      by ring. rewrite Hunit. ring. }
  exists (c * rv, s * rv). split; [destruct (Nat.eqb i 0); reflexivity |].
  unfold inRing. cbn [fst snd]. rewrite Hnorm. split; nra.
Qed.

Lemma outline_vertices (points : nat) (rock : Rock) (l : list nat) :
  0 <= radius rock →
  length (omap vertex (outlineOp points rock <$> l)) = length l
  ∧ Forall (inRing rock) (omap vertex (outlineOp points rock <$> l)).
Proof.
  intros Hr. induction l as [| i l [IHlen IHall]]; [split; [reflexivity | constructor] |].
  destruct (outlineOp_vertex points rock i Hr) as (p & E & Hp).
  rewrite fmap_cons. cbn [omap list_omap]. rewrite E.
  split; [simpl; f_equal; exact IHlen | constructor; assumption].
Qed.

(** X15.  The path drawn by [drawRock] for a rock of radius at least 0 has
    exactly 8 vertices, and every vertex (relative to the centre of the rock)
    is no farther than the radius and no nearer than 0.6 times the radius:
    the drawn outline stays inside the collision circle. *)
Theorem drawRock_outline_within_radius (rock : Rock) :
  0 <= radius rock →
  length (omap vertex (drawRock rock)) = 8%nat
  ∧ Forall (inRing rock) (omap vertex (drawRock rock)).
Proof.
  intros Hr. unfold drawRock.
  destruct (outline_vertices 8 rock (seq 0 8) Hr) as [Hlen Hall].
  rewrite !omap_app. cbn [omap list_omap vertex app]. rewrite app_nil_r.
  split; [exact Hlen | exact Hall].
Qed.

Lemma drawRock_outline_within_radius_witness :
  0 <= radius restingRock
  ∧ length (omap vertex (drawRock restingRock)) = 8%nat
  ∧ Forall (inRing restingRock) (omap vertex (drawRock restingRock)).
Proof.
  assert (Hr : 0 <= radius restingRock) by (simpl; lra).
  split; [exact Hr |].
  apply (drawRock_outline_within_radius restingRock Hr).
Defined.

(** X16.  A sequence of calls of [createRock] (draws in [0, 1)) keeps the
    rocks already there, in place, and appends one rock per call, in call
    order, each with the position and the velocity of its call. *)
Theorem spawnAll_appends_in_call_order (calls : list Spawn) (s : Sim) :
  Forall random_ok calls →
  ∃ s' news,
    spawnAll calls s = Some s'
    ∧ rocks s' = rocks s ++ news
    ∧ launch <$> news = sp_launch <$> calls.
Proof.
  intros Hok. revert s. induction Hok as [| a rest Ha _ IH]; intros s; simpl.
  - exists s, []. rewrite app_nil_r. repeat split.
  - destruct (createRock_Some (sp_now a) (sp_u_type a) (sp_u_radius a) (sp_u_id a)
                (sp_u_rot a) (sp_x a) (sp_y a) (sp_vx a) (sp_vy a) s (proj1 Ha))
      as (t & _ & E).
    unfold spawn at 1. rewrite E. cbn [mbind option_bind].
    match type of E with _ = Some ?s1 => destruct (IH s1) as (s' & news & E' & Hr & Hl) end.
    eexists s', (_ :: news). split; [exact E' |]. split.
    + rewrite Hr. cbn [rocks]. rewrite <- app_assoc. reflexivity.
    + rewrite !fmap_cons, Hl. reflexivity.
Qed.

Lemma spawnAll_appends_in_call_order_witness :
  Forall random_ok [pusherSpawn; pushedSpawn]
  ∧ ∃ s' news,
      spawnAll [pusherSpawn; pushedSpawn] initial = Some s'
      ∧ rocks s' = rocks initial ++ news
      ∧ launch <$> news = sp_launch <$> [pusherSpawn; pushedSpawn].
Proof.
  assert (Hok : Forall random_ok [pusherSpawn; pushedSpawn]) by unit_draws.
  split; [exact Hok |].
  apply (spawnAll_appends_in_call_order [pusherSpawn; pushedSpawn] initial Hok).
Defined.
